(** * CSR graph container, vertexlist view and depth-first views of graph-v2

    A shallow embedding of
    - [include/graph/container/csr_graph.hpp] (the compressed sparse row
      container and its loaders),
    - [include/graph/views/vertexlist_view.hpp] (the vertexlist iterators),
    together with a model of the depth-first traversal engine exercised by
    [test/dfs_tests.cpp].

    Conventions of the embedding.
    - [std::vector<T>] is a [list T]; [v.resize(n, x)] is stdpp's
      [resize n x v] (keeps the first [n] elements, pads with [x]);
      [reserve] only changes capacity and is left out.
    - The container is modelled at its default instantiation
      [VId = EIndex = uint32_t]: identifiers are [N] and every conversion to
      [vertex_id_type], as well as [VId + 1], wraps modulo [2^32].
      [size_type] is the 64 bit [size_t].
    - The wrappers [csr_row<EIndex>] and [csr_col<VId>] are represented by
      their single field [index].
    - An [assert] that fails is an [Err] (loaders) or a [None] (queries). *)

From stdpp Require Import base tactics option list numbers sorting.

Local Open Scope N_scope.

(** ** Integer types *)

Definition VId_modulus : N := 2 ^ 32.
Definition size_type_modulus : N := 2 ^ 64.

(** [static_cast<vertex_id_type>(x)], and arithmetic carried out in
    [vertex_id_type]. *)
Definition to_VId (x : N) : N := x mod VId_modulus.

(** Arithmetic carried out in [size_type]. *)
Definition to_size_type (x : N) : N := x mod size_type_modulus.

(** [ranges::size(r)] and [vector::size()] as a [size_type]. *)
Definition vec_size {A : Type} (l : list A) : N := N.of_nat (length l).

(** ** Failures *)

Inductive load_error : Type :=
| NotEmpty                      (* load_edges: the graph already holds data *)
| OutOfOrder (position : nat)   (* load_edges: source_id regression at this record *)
| IdOutOfRange (id : N).        (* load_row_values: id >= size() *)

Inductive result (A : Type) : Type :=
| Ok (a : A)
| Err (e : load_error).
Arguments Ok {A} a.
Arguments Err {A} e.

Definition bind {A B : Type} (m : result A) (k : A -> result B) : result B :=
  match m with
  | Ok a => k a
  | Err e => Err e
  end.

Definition is_Ok {A : Type} (m : result A) : bool :=
  match m with Ok _ => true | Err _ => false end.

(** ** Input records *)

(** [copyable_edge_t<VId, EV>]; with [EV = void] the record has no [value]
    member, which is modelled by [EV := unit]. *)
Record copyable_edge_t (EV : Type) : Type := mk_edge
  { source_id : N; target_id : N; value : EV }.
Arguments mk_edge {EV} _ _ _.
Arguments source_id {EV} _.
Arguments target_id {EV} _.
Arguments value {EV} _.

(** [copyable_vertex_t<VId, VV>] is read through a structured binding
    [[id, value]] and is modelled as a pair. *)
Definition copyable_vertex_t (VV : Type) : Type := (N * VV)%type.

(** ** [csr_col_values]: the edge values, parallel to [col_index_] *)

(** The primary template stores a vector [v_]; the specialisation for
    [EV = void] stores nothing. *)
Inductive csr_col_values (EV : Type) : Type :=
| col_values_void
| col_values (v_ : list EV).
Arguments col_values_void {EV}.
Arguments col_values {EV} v_.

Definition col_values_size {EV} (c : csr_col_values EV) : N :=
  match c with
  | col_values_void => 0
  | col_values v_ => vec_size v_
  end.

(** [push_back], guarded in [load_edges] by [if constexpr (!is_void_v<EV>)]. *)
Definition col_values_push_back {EV} (c : csr_col_values EV) (x : EV)
  : csr_col_values EV :=
  match c with
  | col_values_void => col_values_void
  | col_values v_ => col_values (v_ ++ [x])
  end.

(** ** [csr_graph_base] *)

(** The two index vectors and the two value bases.  The vertex values are
    the vector [v_] of the primary [csr_row_values] template; its [void]
    specialisation ([size() = 0], [resize] does nothing) behaves in
    [load_edges] as the vector that stays empty. *)
Record csr_graph_base (EV VV : Type) : Type := mk_graph
  { row_values_ : list VV;
    col_values_ : csr_col_values EV;
    row_index_ : list N;
    col_index_ : list N }.
Arguments mk_graph {EV VV} _ _ _ _.
Arguments row_values_ {EV VV} _.
Arguments col_values_ {EV VV} _.
Arguments row_index_ {EV VV} _.
Arguments col_index_ {EV VV} _.

(** [vector::empty()]. *)
Definition vec_empty {A : Type} (l : list A) : bool :=
  match l with [] => true | _ :: _ => false end.

Definition col_values_is_empty {EV} (c : csr_col_values EV) : bool :=
  match c with
  | col_values_void => true
  | col_values v_ => vec_empty v_
  end.

(** A default-constructed graph, with or without edge values. *)
Definition csr_graph_new (EV VV : Type) (ev_is_void : bool) : csr_graph_base EV VV :=
  mk_graph [] (if ev_is_void then col_values_void else col_values []) [] [].

Section loaders.
Context {EV VV : Type} `{!Inhabited VV}.

Abbreviation graph := (csr_graph_base EV VV).
Abbreviation edge := (copyable_edge_t EV).

(** *** [csr_row_values::load_row_values] *)

(** The loop [for (auto&& vtx : vrng)]: bounds assertion, then
    [this->v_[id] = value]. *)
Fixpoint assign_row_values (vrng : list (copyable_vertex_t VV)) (v_ : list VV)
  : result (list VV) :=
  match vrng with
  | [] => Ok v_
  | (id, val) :: vrng' =>
      if id <? vec_size v_
      then assign_row_values vrng' (<[N.to_nat id := val]> v_)
      else Err (IdOutOfRange id)
  end.

(** [vertex_count] is raised to the size of the range and then plays no
    further part: the vector is resized to [ranges::size(vrng)]. *)
Definition load_row_values (v_ : list VV) (vrng : list (copyable_vertex_t VV))
    (vertex_count : N) : result (list VV) :=
  let vertex_count := N.max vertex_count (vec_size vrng) in
  let v_ := resize (length vrng) inhabitant v_ in
  assign_row_values vrng v_.

(** *** [csr_graph_base::load_vertices] *)
Definition load_vertices (g : graph) (vrng : list (copyable_vertex_t VV))
    (vertex_count : N) : result graph :=
  bind (load_row_values (row_values_ g) vrng (N.max vertex_count (vec_size vrng)))
       (fun v_ => Ok (mk_graph v_ (col_values_ g) (row_index_ g) (col_index_ g))).

(** *** [csr_graph_base::last_erng_id] *)

(** The last record is only inspected for a bidirectional range. *)
Definition last_erng_id (bidirectional_range : bool) (erng : list edge) : N :=
  if bidirectional_range then
    match list.last erng with
    | Some e => N.max (source_id e) (target_id e)
    | None => 0
    end
  else 0.

(** *** [csr_graph_base::load_edges] (the [const ERng&] overload) *)

(** The body of the loop after its assertion: open the rows up to
    [source_id], append the target and, unless [EV] is [void], the value.
    New rows are filled with the size of the edge value base. *)
Definition add_edge (g : graph) (e : edge) : graph :=
  mk_graph
    (row_values_ g)
    (col_values_push_back (col_values_ g) (value e))
    (resize (N.to_nat (source_id e + 1))
            (to_VId (col_values_size (col_values_ g))) (row_index_ g))
    (col_index_ g ++ [target_id e]).

(** The loop [for (auto&& edge_data : erng)], threading [*this] and the
    locals [last_uid] and [max_vid]; [position] counts the records read. *)
Fixpoint add_edges (position : nat) (erng : list edge) (g : graph)
    (last_uid max_vid : N) : result (graph * N) :=
  match erng with
  | [] => Ok (g, max_vid)
  | e :: erng' =>
      if source_id e <? last_uid then Err (OutOfOrder position)
      else add_edges (S position) erng' (add_edge g e)
                     (source_id e) (N.max max_vid (target_id e))
  end.

(** Everything after the loop: the final vertex count, the terminating
    row, and the extension of vertex values loaded earlier. *)
Definition finish_rows (vertex_count : N) (g : graph) (max_vid : N) : graph :=
  let vertex_count :=
    N.max vertex_count (N.max (vec_size (row_index_ g)) (to_VId (max_vid + 1))) in
  let rows :=
    resize (N.to_nat (to_size_type (vertex_count + 1)))
           (to_VId (col_values_size (col_values_ g))) (row_index_ g) in
  let vals :=
    if (0 <? vec_size (row_values_ g)) && (vec_size (row_values_ g) <? vertex_count)
    then resize (N.to_nat vertex_count) inhabitant (row_values_ g)
    else row_values_ g in
  mk_graph vals (col_values_ g) rows (col_index_ g).

Definition load_edges (bidirectional_range : bool) (g : graph) (erng : list edge)
    (vertex_count edge_count : N) : result graph :=
  if negb (vec_empty (row_index_ g) && vec_empty (col_index_ g)
           && col_values_is_empty (col_values_ g))
  then Err NotEmpty
  else
    match erng with
    | [] => Ok g
    | _ :: _ =>
        let vertex_count :=
          N.max vertex_count (to_VId (last_erng_id bidirectional_range erng + 1)) in
        (* reserve_vertices(vertex_count): capacity only *)
        let edge_count := N.max edge_count (vec_size erng) in
        (* reserve_edges(edge_count): capacity only *)
        bind (add_edges 0 erng g 0 0)
             (fun '(g', max_vid) => Ok (finish_rows vertex_count g' max_vid))
    end.

(** *** [csr_graph_base::load] *)
Definition load (bidirectional_range : bool) (g : graph) (erng : list edge)
    (vrng : list (copyable_vertex_t VV)) : result graph :=
  bind (load_edges bidirectional_range g erng 0 0)
       (fun g' => load_vertices g' vrng 0).

(** *** Queries ([tag_invoke] overloads) *)

(** [vertices(g)]: every row but the terminating one.  A vertex handle is
    an iterator into [row_index_], represented by its offset. *)
Definition vertices_fn (g : graph) : list nat :=
  if vec_empty (row_index_ g) then []
  else seq 0 (length (row_index_ g) - 1).

Definition num_vertices (g : graph) : N := vec_size (vertices_fn g).

(** [vertex_id(g, ui)]. *)
Definition vertex_id_fn (g : graph) (ui : nat) : N := to_VId (N.of_nat ui).

(** [find_vertex(id)]. *)
Definition find_vertex (g : graph) (id : N) : nat := N.to_nat id.

(** [edges(g, uid)]: the subrange of [col_index_] delimited by two
    consecutive rows, as its pair of iterators.  An iterator into
    [col_index_], and the edge reference it yields, is represented by its
    offset ([index_of]).  [None] when an assertion fails or a row is read
    out of bounds. *)
Definition edges_fn (g : graph) (uid : N) : option (nat * nat) :=
  let next := to_VId (uid + 1) in
  if negb (next <? vec_size (row_index_ g)) then None
  else
    match row_index_ g !! N.to_nat next, row_index_ g !! N.to_nat uid with
    | Some last, Some first =>
        if negb (last <=? vec_size (col_index_ g)) then None
        else Some (N.to_nat first, N.to_nat last)
    | _, _ => None
    end.

(** The edge references met when iterating a subrange. *)
Definition range_elements (r : nat * nat) : list nat := seq (fst r) (snd r - fst r).

(** [target_id(g, uv)]: the stored column entry. *)
Definition target_id_fn (g : graph) (uv : nat) : option N := col_index_ g !! uv.

(** [edge_value(g, uv)]: present in the primary template only. *)
Definition edge_value_fn (g : graph) (uv : nat) : option EV :=
  match col_values_ g with
  | col_values_void => None
  | col_values v_ => v_ !! uv
  end.

(** [vertex_value(g, u)]. *)
Definition vertex_value_fn (g : graph) (u : nat) : option VV := row_values_ g !! u.

End loaders.

(** *** Flattening a graph back into edge order *)
Section flatten.
Context {EV VV : Type}.
Abbreviation graph := (csr_graph_base EV VV).

(** Reads every edge of [edges(g, uid)] through [read]. *)
Definition out_edges {A : Type} (read : graph -> nat -> option A) (g : graph) (uid : N)
  : option (list A) :=
  match edges_fn g uid with
  | Some r => mapM (read g) (range_elements r)
  | None => None
  end.

(** [edges(g, v)] for [v] in the order of [vertices(g)], concatenated. *)
Definition flatten_edges {A : Type} (read : graph -> nat -> option A) (g : graph)
  : option (list A) :=
  match mapM (fun u => out_edges read g (vertex_id_fn g u)) (vertices_fn g) with
  | Some per_vertex => Some (concat per_vertex)
  | None => None
  end.

Definition flatten_target_ids (g : graph) : option (list N) := flatten_edges target_id_fn g.
Definition flatten_edge_values (g : graph) : option (list EV) := flatten_edges edge_value_fn g.

End flatten.

(** ** Vertexlist view ([vertexlist_view.hpp]) *)

(** [const_vertexlist_iterator<G>]; [vertexlist_iterator<G>] derives from it
    and has the same two members.  [value_] is the shadow pair of the key
    and a vertex pointer ([None] is [nullptr]); [iter_] is the underlying
    vertex iterator, an offset into [vertices(g)]. *)
Record const_vertexlist_iterator : Type := mk_vertexlist_iterator
  { value_ : N * option nat;
    iter_ : nat }.

Abbreviation vertexlist_iterator := const_vertexlist_iterator.

(** Constructor [(vertex_iterator_type iter, vertex_key_type start_at = 0)]. *)
Definition vertexlist_iterator_at (iter : nat) (start_at : N) : const_vertexlist_iterator :=
  mk_vertexlist_iterator (start_at, None) iter.

(** Constructor [(const graph_type& g)]: [iter_] is [begin(vertices(g))] and
    [value_] keeps its default member initialiser. *)
Definition vertexlist_iterator_of_graph : const_vertexlist_iterator :=
  mk_vertexlist_iterator (0, None) 0%nat.

(** [operator*]: refreshes the pointer, then hands out the pair. *)
Definition vertexlist_deref (it : const_vertexlist_iterator)
  : const_vertexlist_iterator * (N * nat) :=
  (mk_vertexlist_iterator (fst (value_ it), Some (iter_ it)) (iter_ it),
   (fst (value_ it), iter_ it)).

(** [operator++]: cursor and key advance in lockstep; the pointer is left
    as it is. *)
Definition vertexlist_next (it : const_vertexlist_iterator) : const_vertexlist_iterator :=
  mk_vertexlist_iterator (to_VId (fst (value_ it) + 1), snd (value_ it)) (S (iter_ it)).

(** [const_vertexlist_iterator::operator==]. *)
Definition const_vertexlist_iterator_eq (lhs rhs : const_vertexlist_iterator) : bool :=
  Nat.eqb (iter_ lhs) (iter_ rhs).

(** [vertexlist_iterator::operator==]. *)
Definition vertexlist_iterator_eq (lhs rhs : vertexlist_iterator) : bool :=
  Nat.eqb (iter_ lhs) (iter_ rhs).

(** The friend [operator==(vertex_iterator, iterator)] used against the
    sentinel of the view. *)
Definition vertexlist_sentinel_eq (lhs : nat) (rhs : const_vertexlist_iterator) : bool :=
  Nat.eqb lhs (iter_ rhs).

(** The subrange returned by the [vertexlist_view] overloads: a first
    iterator and the sentinel. *)
Definition vertexlist_view {EV VV} (g : csr_graph_base EV VV)
  : const_vertexlist_iterator * nat :=
  (vertexlist_iterator_at 0 0, length (vertices_fn g)).

Definition vertexlist_view_range (first last : nat) : const_vertexlist_iterator * nat :=
  (vertexlist_iterator_at first (to_VId (N.of_nat first)), last).

Definition vertexlist_view_range_at (first last : nat) (start_at : N)
  : const_vertexlist_iterator * nat :=
  (vertexlist_iterator_at first start_at, last).

(** A range-for over the view: dereference and increment until the
    iterator meets the sentinel, for at most [fuel] elements. *)
Fixpoint vertexlist_elements (fuel : nat) (it : const_vertexlist_iterator) (last : nat)
  : list (N * nat) :=
  match fuel with
  | O => []
  | S fuel' =>
      if vertexlist_sentinel_eq last it then []
      else snd (vertexlist_deref it)
           :: vertexlist_elements fuel' (vertexlist_next (fst (vertexlist_deref it))) last
  end.

(** ** Depth-first views

    [graph/views/depth_first_search.hpp] is not part of the sources at
    hand; only its test is.  The traversal engine below follows the
    specification of the depth-first views and runs over the container
    through [edges_fn] and [target_id_fn]. *)

(** Modelled from the spec: the [cancel_search] policy of the missing
    [depth_first_search.hpp]; the two policies named by the specification
    and the idle state of the flag. *)
Inductive cancel_search : Type :=
| continue_search
| cancel_branch
| cancel_all.

(** Modelled from the spec: a stack frame of the missing traversal engine,
    [(vertex_id, edge_cursor, edge_end)]. *)
Record dfs_frame : Type := mk_frame
  { frame_vertex : N; edge_cursor : nat; edge_end : nat }.

(** Modelled from the spec: the state of the missing traversal engine, a
    visited bitmap sized [|V|], the explicit stack (top first) and the
    cancellation flag. *)
Record dfs_state : Type := mk_dfs
  { visited : list bool; stack : list dfs_frame; cancel_ : cancel_search }.

(** Modelled from the spec: the discovery event of the missing engine.  The
    vertex view reads [(discovered, find_vertex discovered)], the edge view
    [(discovered, via_edge)], the sourced edge view adds [discovered_from]. *)
Record discovery : Type := mk_discovery
  { discovered_from : N; discovered : N; via_edge : nat }.

(** Modelled from the spec: the bitmap test of the missing engine.  A target
    outside the bitmap cannot be marked and is passed over. *)
Definition is_visited (bitmap : list bool) (v : N) : bool :=
  match bitmap !! N.to_nat v with
  | Some b => b
  | None => true
  end.

Section depth_first_search.
Context {EV VV : Type} (g : csr_graph_base EV VV).

(** Modelled from the spec: the frame [(v, begin(edges(v)), end(edges(v)))]
    pushed by the missing engine. *)
Definition frame_of (v : N) : dfs_frame :=
  match edges_fn g v with
  | Some (first, last) => mk_frame v first last
  | None => mk_frame v 0 0
  end.

(** Modelled from the spec: initialisation of the missing engine, mark the
    seed and push its frame; [None] is [SeedOutOfRange]. *)
Definition dfs_init (seed : N) : option dfs_state :=
  if seed <? num_vertices g then
    Some (mk_dfs (<[N.to_nat seed := true]> (replicate (N.to_nat (num_vertices g)) false))
                 [frame_of seed] continue_search)
  else None.

(** Modelled from the spec: steps 2 to 5 of the advance step of the missing
    engine on one frame.  Walks the cursor over at most [span] edges and
    stops at the first edge whose target is unvisited, returning the
    target, the edge and the pre-advanced cursor. *)
Fixpoint next_unvisited (bitmap : list bool) (span cur : nat) : option (N * nat * nat) :=
  match span with
  | O => None
  | S span' =>
      match target_id_fn g cur with
      | Some v =>
          if is_visited bitmap v then next_unvisited bitmap span' (S cur)
          else Some (v, cur, S cur)
      | None => next_unvisited bitmap span' (S cur)
      end
  end.

(** Modelled from the spec: the advance step of the missing engine.  A
    frame whose cursor reaches its end is popped; on a discovery the target
    is marked, its frame is pushed over the frame it was found in, and the
    event is yielded.  An empty stack is exhaustion. *)
Fixpoint advance_from (bitmap : list bool) (frames : list dfs_frame)
  : option discovery * (list bool * list dfs_frame) :=
  match frames with
  | [] => (None, (bitmap, []))
  | top :: below =>
      match next_unvisited bitmap (edge_end top - edge_cursor top) (edge_cursor top) with
      | Some (v, e, cur') =>
          (Some (mk_discovery (frame_vertex top) v e),
           (<[N.to_nat v := true]> bitmap,
            frame_of v :: mk_frame (frame_vertex top) cur' (edge_end top) :: below))
      | None => advance_from bitmap below
      end
  end.

(** Modelled from the spec: the next advance of the missing engine consumes
    the cancellation flag; [cancel_branch] pops one frame first,
    [cancel_all] empties the stack. *)
Definition advance (st : dfs_state) : option discovery * dfs_state :=
  let '(d, (bitmap, frames)) :=
    match cancel_ st with
    | continue_search => advance_from (visited st) (stack st)
    | cancel_branch => advance_from (visited st) (tail (stack st))
    | cancel_all => (None, (visited st, []))
    end in
  (d, mk_dfs bitmap frames continue_search).

(** Modelled from the spec: [cancel(policy)] of the missing views only sets
    the flag. *)
Definition cancel (st : dfs_state) (policy : cancel_search) : dfs_state :=
  mk_dfs (visited st) (stack st) policy.

(** Modelled from the spec: [depth()] of the missing views is the stack
    size. *)
Definition depth (st : dfs_state) : nat := length (stack st).

(** Modelled from the spec: a range-for over a missing depth-first view.
    After each yielded element the loop body [client] chooses a policy
    ([continue_search] when it does not call [cancel]).  The result is the
    sequence of events paired with the state they were yielded in, and
    whether the traversal reached exhaustion within [fuel] advances. *)
Fixpoint dfs_run (fuel : nat) (client : discovery -> cancel_search) (st : dfs_state)
  : list (discovery * dfs_state) * bool :=
  match fuel with
  | O => ([], false)
  | S fuel' =>
      match advance st with
      | (None, _) => ([], true)
      | (Some d, st') =>
          let '(rest, exhausted) := dfs_run fuel' client (cancel st' (client d)) in
          ((d, st') :: rest, exhausted)
      end
  end.

(** Number of vertices not yet marked. *)
Definition unvisited (bitmap : list bool) : nat := length (filter (fun b => b = false) bitmap).

(** Modelled from the spec: a complete traversal from a state.  Every yield
    marks one more vertex, so one advance per unmarked vertex and a last
    one to observe exhaustion are enough. *)
Definition dfs_all (client : discovery -> cancel_search) (st : dfs_state)
  : list (discovery * dfs_state) * bool :=
  dfs_run (S (unvisited (visited st))) client st.

(** Modelled from the spec: the depth-first vertex view of the missing
    header from [seed], yielding vertex ids. *)
Definition dfs_vertex_range (client : discovery -> cancel_search) (seed : N)
  : option (list N * bool) :=
  match dfs_init seed with
  | Some st => let '(events, exhausted) := dfs_all client st in
               Some (discovered <$> (fst <$> events), exhausted)
  | None => None
  end.

(** Modelled from the spec: the depth-first edge view of the missing
    header, yielding the discovered id and the edge that led to it. *)
Definition dfs_edge_range (client : discovery -> cancel_search) (seed : N)
  : option (list (N * nat) * bool) :=
  match dfs_init seed with
  | Some st => let '(events, exhausted) := dfs_all client st in
               Some ((fun d => (discovered d, via_edge d)) <$> (fst <$> events), exhausted)
  | None => None
  end.

(** The vertices of the frames under the top one: the ancestors, in the
    depth-first tree, of the element that pushed the top frame. *)
Definition ancestors (st : dfs_state) : list N := frame_vertex <$> tail (stack st).

End depth_first_search.

(** ** The routes of the test data *)

(** The nine routes, ordered by source, with their distance in km. *)
Definition routes : list (copyable_edge_t N) :=
  [ mk_edge 0 1 85; mk_edge 0 4 217; mk_edge 0 6 173; mk_edge 1 2 80;
    mk_edge 2 3 250; mk_edge 3 8 84; mk_edge 4 5 103; mk_edge 4 7 186;
    mk_edge 5 9 183 ].

(** The graph [load_edges] is expected to build from [routes]. *)
Definition routes_graph (VV : Type) : csr_graph_base N VV :=
  mk_graph [] (col_values [85; 217; 173; 80; 250; 84; 103; 186; 183])
           [0; 3; 4; 5; 6; 8; 9; 9; 9; 9; 9] [1; 4; 6; 2; 3; 8; 5; 7; 9].

(** Loop bodies of the tests: no cancellation, and [cancel(policy)] when
    the yielded id is [at]. *)
Definition no_cancel (d : discovery) : cancel_search := continue_search.
Definition cancel_at (at_id : N) (policy : cancel_search) (d : discovery) : cancel_search :=
  if discovered d =? at_id then policy else continue_search.

(** ** Side conditions used by the statements *)

(** The note at the head of [csr_graph.hpp]: "VId must be large enough for
    the total edges and the total vertices".  No edge count, vertex count
    or [id + 1] wraps around in [vertex_id_type]. *)
Definition VId_large_enough {EV} (erng : list (copyable_edge_t EV)) (vertex_count : N) : bool :=
  (vec_size erng <? VId_modulus) && (vertex_count <? VId_modulus)
  && forallb (fun e => (source_id e + 1 <? VId_modulus) && (target_id e + 1 <? VId_modulus)) erng.

(** The graph holds no rows, no columns and no edge values. *)
Definition graph_is_empty {EV VV} (g : csr_graph_base EV VV) : bool :=
  vec_empty (row_index_ g) && vec_empty (col_index_ g) && col_values_is_empty (col_values_ g).

(** What the loop of [load_edges] maintains on a graph that stores edge
    values, with [max_vid] the running maximum of the targets: values and
    columns have the same length; the rows are non-decreasing, bounded by
    the number of columns and start at zero; no target exceeds [max_vid];
    and nothing has outgrown [vertex_id_type]. *)
Definition loop_invariant {EV VV} (g : csr_graph_base EV VV) (max_vid : N) : Prop :=
  (exists v_, col_values_ g = col_values v_ /\ length v_ = length (col_index_ g))
  /\ StronglySorted N.le (row_index_ g)
  /\ Forall (fun r => r <= vec_size (col_index_ g)) (row_index_ g)
  /\ match row_index_ g with [] => col_index_ g = [] | r :: _ => r = 0 end
  /\ Forall (fun t => t <= max_vid) (col_index_ g)
  /\ vec_size (row_index_ g) < VId_modulus
  /\ max_vid + 1 < VId_modulus.

(** The edges of [vertices(g)[i]] as a slice of a vector parallel to
    [col_index_], for row offsets [r]. *)
Definition row_slice {A} (items : list A) (r : nat -> nat) (i : nat) : list A :=
  take (r (S i) - r i) (drop (r i) items).

(** The frames the next advance starts from, once the flag is consumed. *)
Definition pending_frames (st : dfs_state) : list dfs_frame :=
  match cancel_ st with
  | continue_search => stack st
  | cancel_branch => tail (stack st)
  | cancel_all => []
  end.

(** Every vertex that owns a frame has been marked. *)
Definition stack_marked (st : dfs_state) : Prop :=
  Forall (fun f => is_visited (visited st) (frame_vertex f) = true) (stack st).

(** ** Further members of [csr_graph.hpp] *)

Section further_members.
Context {EV VV : Type} `{!Inhabited VV}.

(** *** [max_vertex_id]: the largest id used by a range and its length *)
Definition max_vertex_id (erng : list (copyable_edge_t EV)) : N * N :=
  fold_left
    (fun '(max_id, edge_count) uv =>
       (N.max max_id (N.max (to_VId (source_id uv)) (to_VId (target_id uv))),
        edge_count + 1))
    erng (0, 0).

(** *** [csr_graph_base::load_edges] (the [ERng&&] overload) *)

(** The forwarding overload runs the same loop (its value push is an
    [emplace_back], and it is only instantiable when [EV] is not [void]);
    after the loop it extends the vertex values only when more than one
    was loaded. *)
Definition finish_rows_forwarding (vertex_count : N) (g : csr_graph_base EV VV)
    (max_vid : N) : csr_graph_base EV VV :=
  let vertex_count :=
    N.max vertex_count (N.max (vec_size (row_index_ g)) (to_VId (max_vid + 1))) in
  let rows :=
    resize (N.to_nat (to_size_type (vertex_count + 1)))
           (to_VId (col_values_size (col_values_ g))) (row_index_ g) in
  let vals :=
    if (1 <? vec_size (row_values_ g)) && (vec_size (row_values_ g) <? vertex_count)
    then resize (N.to_nat vertex_count) inhabitant (row_values_ g)
    else row_values_ g in
  mk_graph vals (col_values_ g) rows (col_index_ g).

Definition load_edges_forwarding (bidirectional_range : bool) (g : csr_graph_base EV VV)
    (erng : list (copyable_edge_t EV)) (vertex_count edge_count : N)
  : result (csr_graph_base EV VV) :=
  if negb (vec_empty (row_index_ g) && vec_empty (col_index_ g)
           && col_values_is_empty (col_values_ g))
  then Err NotEmpty
  else
    match erng with
    | [] => Ok g
    | _ :: _ =>
        let vertex_count :=
          N.max vertex_count (to_VId (last_erng_id bidirectional_range erng + 1)) in
        (* reserve_vertices(vertex_count): capacity only *)
        let edge_count := N.max edge_count (vec_size erng) in
        (* reserve_edges(edge_count): capacity only *)
        bind (add_edges 0 erng g 0 0)
             (fun '(g', max_vid) => Ok (finish_rows_forwarding vertex_count g' max_vid))
    end.

(** *** [edges(g, u)] by vertex reference *)

(** [u] is a reference to a row, represented by its offset; [u2 = &u + 1]
    is the row after it.  The first assertion compares [u2 - &u], which is
    1, with the number of rows.  [None] when an assertion fails or when
    [u2] is read past the end. *)
Definition edges_ref_fn (g : csr_graph_base EV VV) (u : nat) : option (nat * nat) :=
  if negb (1 <? vec_size (row_index_ g)) then None
  else
    match row_index_ g !! u, row_index_ g !! S u with
    | Some first, Some last =>
        if negb ((first <=? vec_size (col_index_ g)) && (last <=? vec_size (col_index_ g)))
        then None
        else Some (N.to_nat first, N.to_nat last)
    | _, _ => None
    end.

(** *** [target(g, uv)]: the row at the stored column entry *)

(** [g.row_index_[uv.index]] as a vertex reference; [None] when the entry
    indexes past the rows. *)
Definition target_fn (g : csr_graph_base EV VV) (uv : nat) : option nat :=
  match col_index_ g !! uv with
  | Some t => if t <? vec_size (row_index_ g) then Some (N.to_nat t) else None
  | None => None
  end.

End further_members.

(** ** Notions used to state the further properties *)

(** The records of a range that leave vertex [v], in range order. *)
Definition edges_from {EV} (v : N) (erng : list (copyable_edge_t EV))
  : list (copyable_edge_t EV) :=
  filter (fun e => source_id e = v) erng.

(** How many records of a range leave a vertex below [i]. *)
Definition sources_below {EV} (i : N) (erng : list (copyable_edge_t EV)) : nat :=
  length (filter (fun e => source_id e < i) erng).

(** What the loop of [load_edges] has built after reading the records
    [read], the last of them with source [last_uid]: row [i] holds the
    number of records read that leave a vertex below [i], and the rows end
    with the row of [last_uid]. *)
Definition rows_count_sources {EV VV} (g : csr_graph_base EV VV)
    (read : list (copyable_edge_t EV)) (last_uid : N) : Prop :=
  (forall i, (i < length (row_index_ g))%nat ->
             row_index_ g !! i = Some (N.of_nat (sources_below (N.of_nat i) read)))
  /\ Forall (fun e => source_id e <= last_uid) read
  /\ ((read = [] /\ row_index_ g = [])
      \/ length (row_index_ g) = N.to_nat (last_uid + 1)).

(** * Properties *)

(** ** The concrete load *)

(** C2: loading the nine routes into an empty graph gives ten vertices,
    nine edges, row offsets [0,3,4,5,6,8,9,9,9,9,9] and column targets
    [1,4,6,2,3,8,5,7,9]. *)
Theorem load_edges_routes :
  forall (VV : Type) (HVV : Inhabited VV) (bidirectional_range : bool),
    load_edges bidirectional_range (csr_graph_new N VV false) routes 0 0
    = Ok (routes_graph VV)
    /\ num_vertices (routes_graph VV) = 10
    /\ vec_size (col_index_ (routes_graph VV)) = 9
    /\ row_index_ (routes_graph VV) = [0; 3; 4; 5; 6; 8; 9; 9; 9; 9; 9]
    /\ col_index_ (routes_graph VV) = [1; 4; 6; 2; 3; 8; 5; 7; 9].
Proof.
  intros VV HVV b. repeat split. destruct b; vm_compute; reflexivity.
Qed.

(** ** Empty input *)

Lemma vertexlist_elements_empty (fuel : nat) (it : const_vertexlist_iterator) :
  iter_ it = 0%nat -> vertexlist_elements fuel it 0 = [].
Proof.
  intros Hit. destruct fuel as [|fuel]; simpl; [reflexivity|].
  unfold vertexlist_sentinel_eq. rewrite Hit. reflexivity.
Qed.

(** C6: [load_edges] over an empty range returns at once.  An empty graph
    stays empty: no row (so no terminating row), no column, no vertex, and
    a walk over [vertices(g)] or over the vertexlist view yields nothing. *)
Theorem load_edges_empty_range :
  forall (EV VV : Type) (HVV : Inhabited VV) (bidirectional_range : bool)
         (g : csr_graph_base EV VV) (vertex_count edge_count : N),
    graph_is_empty g = true ->
    load_edges bidirectional_range g [] vertex_count edge_count = Ok g
    /\ length (row_index_ g) = 0%nat
    /\ length (col_index_ g) = 0%nat
    /\ num_vertices g = 0
    /\ vertices_fn g = []
    /\ (forall fuel, vertexlist_elements fuel (fst (vertexlist_view g))
                                         (snd (vertexlist_view g)) = []).
Proof.
  intros EV VV HVV b g vc ec Hempty.
  unfold graph_is_empty in Hempty.
  unfold load_edges. rewrite Hempty. simpl.
  apply andb_prop in Hempty as [Hrc Hvals].
  apply andb_prop in Hrc as [Hrows Hcols].
  destruct g as [vals cv rows cols]; simpl in *.
  destruct rows; [|discriminate]. destruct cols; [|discriminate].
  repeat split. intros fuel. apply vertexlist_elements_empty. reflexivity.
Qed.

Lemma load_edges_empty_range_witness :
  load_edges true (csr_graph_new N unit true) [] 0 0 = Ok (csr_graph_new N unit true)
  /\ vertices_fn (csr_graph_new N unit true) = [].
Proof.
  pose proof (load_edges_empty_range N unit _ true (csr_graph_new N unit true) 0 0
                eq_refl) as H.
  split; [apply H | apply H].
Defined.

(** ** Vertexlist iterators *)

(** C9: both [operator==] compare the vertex cursors and nothing else.  Two
    iterators are equal exactly when their cursors are, whatever their
    stored keys; in particular views over the same range that start their
    keys at different values have equal first iterators. *)
Theorem vertexlist_iterator_eq_cursor :
  forall a b : const_vertexlist_iterator,
    (const_vertexlist_iterator_eq a b = true <-> iter_ a = iter_ b)
    /\ (vertexlist_iterator_eq a b = true <-> iter_ a = iter_ b)
    /\ (forall (cursor : nat) (key1 key2 : N) (p1 p2 : option nat),
          const_vertexlist_iterator_eq (mk_vertexlist_iterator (key1, p1) cursor)
                                       (mk_vertexlist_iterator (key2, p2) cursor) = true
          /\ vertexlist_iterator_eq (mk_vertexlist_iterator (key1, p1) cursor)
                                    (mk_vertexlist_iterator (key2, p2) cursor) = true)
    /\ (forall (first last : nat) (start1 start2 : N),
          vertexlist_iterator_eq (fst (vertexlist_view_range_at first last start1))
                                 (fst (vertexlist_view_range_at first last start2)) = true).
Proof.
  intros a b.
  unfold const_vertexlist_iterator_eq, vertexlist_iterator_eq.
  split; [apply Nat.eqb_eq|]. split; [apply Nat.eqb_eq|].
  split; intros; simpl; rewrite ?Nat.eqb_refl; auto.
Qed.

Lemma vertexlist_iterator_eq_cursor_witness :
  vertexlist_iterator_eq (vertexlist_iterator_at 3 0) (vertexlist_iterator_at 3 7) = true
  /\ fst (value_ (vertexlist_iterator_at 3 0)) <> fst (value_ (vertexlist_iterator_at 3 7)).
Proof.
  split.
  - apply (proj1 (proj2 (vertexlist_iterator_eq_cursor
                           (vertexlist_iterator_at 3 0) (vertexlist_iterator_at 3 7)))).
    reflexivity.
  - simpl. discriminate.
Defined.


(** ** Preconditions of [load_edges] *)

Section load_edges_order.
Context {EV VV : Type} `{!Inhabited VV}.
Implicit Types (g : csr_graph_base EV VV) (erng : list (copyable_edge_t EV)).

Lemma load_edges_not_empty bidirectional_range g erng vertex_count edge_count :
  graph_is_empty g = false ->
  load_edges bidirectional_range g erng vertex_count edge_count = Err NotEmpty.
Proof.
  unfold graph_is_empty, load_edges. intros ->. reflexivity.
Qed.

Lemma graph_is_empty_false g :
  row_index_ g <> [] \/ col_index_ g <> []
  \/ (exists v_, col_values_ g = col_values v_ /\ v_ <> []) ->
  graph_is_empty g = false.
Proof.
  unfold graph_is_empty. destruct g as [vals cv rows cols]; simpl.
  intros [H | [H | (v_ & -> & H)]].
  - destruct rows; [congruence | reflexivity].
  - destruct cols; [congruence | apply andb_false_iff; left; apply andb_false_r].
  - destruct v_; [congruence | apply andb_false_r].
Qed.

(** The loop runs to its end on a range ordered by source. *)
Lemma add_edges_sorted erng : forall position g last_uid max_vid,
  Sorted N.le (last_uid :: (source_id <$> erng)) ->
  exists g' max_vid', add_edges position erng g last_uid max_vid = Ok (g', max_vid').
Proof.
  induction erng as [|e erng IH]; intros position g last_uid max_vid Hs; simpl.
  - eauto.
  - apply Sorted_inv in Hs as [Hs Hhd]. apply HdRel_inv in Hhd.
    destruct (N.ltb_spec (source_id e) last_uid); [lia|].
    apply IH. exact Hs.
Qed.

(** The loop stops at the first record whose source is below the one
    before it. *)
Lemma add_edges_regression pre : forall position g last_uid max_vid a b post,
  Sorted N.le (last_uid :: (source_id <$> pre ++ [a])) ->
  source_id b < source_id a ->
  add_edges position (pre ++ a :: b :: post) g last_uid max_vid
  = Err (OutOfOrder (position + S (length pre))).
Proof.
  induction pre as [|e pre IH]; intros position g last_uid max_vid a b post Hs Hlt; simpl.
  - apply Sorted_inv in Hs as [_ Hhd]. apply HdRel_inv in Hhd.
    destruct (N.ltb_spec (source_id a) last_uid); [lia|].
    destruct (N.ltb_spec (source_id b) (source_id a)); [|lia].
    f_equal. f_equal. lia.
  - apply Sorted_inv in Hs as [Hs Hhd]. apply HdRel_inv in Hhd.
    destruct (N.ltb_spec (source_id e) last_uid); [lia|].
    rewrite (IH (S position)) by assumption.
    f_equal. f_equal. lia.
Qed.

(** An [OutOfOrder] failure always points at a regression. *)
Lemma add_edges_out_of_order erng : forall position g last_uid max_vid p,
  add_edges position erng g last_uid max_vid = Err (OutOfOrder p) ->
  exists b, (position <= p)%nat /\ erng !! (p - position)%nat = Some b
    /\ source_id b < match (p - position)%nat with
                     | O => last_uid
                     | S i => from_option source_id 0 (erng !! i)
                     end.
Proof.
  induction erng as [|e erng IH]; intros position g last_uid max_vid p; simpl.
  - discriminate.
  - destruct (N.ltb_spec (source_id e) last_uid) as [Hlt|Hge].
    + intros [= <-]. exists e. rewrite Nat.sub_diag. auto.
    + intros Herr. apply IH in Herr as (b & Hle & Hb & Hsrc).
      exists b. replace (p - position)%nat with (S (p - S position)) by lia.
      simpl. split; [lia|]. split; [exact Hb|].
      destruct (p - S position)%nat as [|i] eqn:Hi; simpl in *; exact Hsrc.
Qed.

Lemma add_edges_no_other_error erng : forall position g last_uid max_vid e,
  add_edges position erng g last_uid max_vid = Err e -> exists p, e = OutOfOrder p.
Proof.
  induction erng as [|x erng IH]; intros position g last_uid max_vid e; simpl.
  - discriminate.
  - destruct (source_id x <? last_uid); [intros [= <-]; eauto | apply IH].
Qed.

Lemma Sorted_from_zero (l : list N) : Sorted N.le l -> Sorted N.le (0 :: l).
Proof.
  intros Hs. constructor; [exact Hs|]. destruct l; constructor. lia.
Qed.

End load_edges_order.

(** C5: [load_edges] on a graph that already holds rows, columns or edge
    values fails with [NotEmpty].  On an empty graph, the first record whose
    source is below the source of the record before it makes the load fail
    with [OutOfOrder] at that record; and an [OutOfOrder] failure is only
    ever raised at a record whose source is below its predecessor's. *)
Theorem load_edges_preconditions :
  forall (EV VV : Type) (HVV : Inhabited VV) (bidirectional_range : bool)
         (g : csr_graph_base EV VV) (erng : list (copyable_edge_t EV))
         (vertex_count edge_count : N),
    ((row_index_ g <> [] \/ col_index_ g <> []
      \/ (exists v_, col_values_ g = col_values v_ /\ v_ <> [])) ->
     load_edges bidirectional_range g erng vertex_count edge_count = Err NotEmpty)
    /\ (graph_is_empty g = true ->
        forall pre a b post,
          erng = pre ++ a :: b :: post ->
          Sorted N.le (source_id <$> pre ++ [a]) ->
          source_id b < source_id a ->
          load_edges bidirectional_range g erng vertex_count edge_count
          = Err (OutOfOrder (S (length pre))))
    /\ (forall p,
          load_edges bidirectional_range g erng vertex_count edge_count
          = Err (OutOfOrder p) ->
          exists i a b, p = S i /\ erng !! i = Some a /\ erng !! p = Some b
                        /\ source_id b < source_id a).
Proof.
  intros EV VV HVV bidir g erng vc ec. split; [|split].
  - intros Hne. apply load_edges_not_empty, graph_is_empty_false, Hne.
  - intros Hempty pre a b post -> Hs Hlt.
    unfold load_edges. fold (graph_is_empty g). rewrite Hempty. simpl.
    destruct (pre ++ a :: b :: post) as [|e erng] eqn:Herng;
      [destruct pre; discriminate|].
    rewrite <- Herng, (add_edges_regression pre 0%nat g 0 0 a b post);
      [reflexivity | apply Sorted_from_zero, Hs | exact Hlt].
  - unfold load_edges. destruct (negb _); [discriminate|].
    destruct erng as [|e erng]; [discriminate|].
    destruct (add_edges 0 (e :: erng) g 0 0) as [[g' mx]|err] eqn:Hloop; simpl;
      [discriminate|].
    intros p [= ->]. apply add_edges_out_of_order in Hloop as (b & _ & Hb & Hsrc).
    rewrite Nat.sub_0_r in Hb, Hsrc.
    destruct p as [|i]; [lia|].
    destruct ((e :: erng) !! i) as [a|] eqn:Ha; simpl in Hsrc; [|lia].
    exists i, a, b. auto.
Qed.

Lemma load_edges_preconditions_witness :
  load_edges true (routes_graph unit) routes 0 0 = Err NotEmpty
  /\ load_edges true (csr_graph_new N unit false)
                 [mk_edge 0 1 10; mk_edge 2 1 20; mk_edge 1 1 30] 0 0
     = Err (OutOfOrder 2).
Proof.
  split.
  - apply (proj1 (load_edges_preconditions N unit _ true (routes_graph unit) routes 0 0)).
    left. discriminate.
  - apply (proj1 (proj2 (load_edges_preconditions N unit _ true
                           (csr_graph_new N unit false)
                           [mk_edge 0 1 10; mk_edge 2 1 20; mk_edge 1 1 30] 0 0))
             eq_refl [mk_edge 0 1 10] (mk_edge 2 1 20) (mk_edge 1 1 30) []).
    + reflexivity.
    + repeat constructor; simpl; lia.
    + reflexivity.
Defined.
(** ** Loading vertex values *)

Section load_vertices_facts.
Context {VV : Type} `{!Inhabited VV}.
Implicit Types (vrng : list (copyable_vertex_t VV)) (vals r : list VV).

Lemma assign_row_values_length vrng : forall vals r,
  assign_row_values vrng vals = Ok r -> length r = length vals.
Proof.
  induction vrng as [|[id val] vrng IH]; intros vals r; simpl.
  - intros [= ->]. reflexivity.
  - destruct (id <? vec_size vals); [|discriminate].
    intros H. apply IH in H. rewrite H. apply length_insert.
Qed.

(** Entries no pair refers to keep their value. *)
Lemma assign_row_values_other vrng (i : N) : forall vals r,
  assign_row_values vrng vals = Ok r ->
  Forall (fun p => fst p <> i) vrng ->
  r !! N.to_nat i = vals !! N.to_nat i.
Proof.
  induction vrng as [|[id val] vrng IH]; intros vals r; simpl.
  - intros [= ->] _. reflexivity.
  - destruct (id <? vec_size vals); [|discriminate].
    intros H Hall. apply Forall_cons in Hall as [Hne Hall]. simpl in Hne.
    rewrite (IH _ _ H Hall). apply list_lookup_insert_ne. lia.
Qed.

Lemma assign_row_values_app vrng1 vrng2 : forall vals,
  assign_row_values (vrng1 ++ vrng2) vals
  = bind (assign_row_values vrng1 vals) (assign_row_values vrng2).
Proof.
  induction vrng1 as [|[id val] vrng1 IH]; intros vals; simpl.
  - reflexivity.
  - destruct (id <? vec_size vals); [apply IH | reflexivity].
Qed.

(** The last pair written for an id is the one that stays. *)
Lemma assign_row_values_last before i val after : forall vals r,
  assign_row_values (before ++ (i, val) :: after) vals = Ok r ->
  Forall (fun p => fst p <> i) after ->
  r !! N.to_nat i = Some val.
Proof.
  intros vals r. rewrite assign_row_values_app.
  destruct (assign_row_values before vals) as [v1|e]; simpl; [|discriminate].
  destruct (N.ltb_spec i (vec_size v1)) as [Hlt|]; [|discriminate].
  intros H Hall. rewrite (assign_row_values_other _ i _ _ H Hall).
  apply list_lookup_insert_eq. unfold vec_size in Hlt. lia.
Qed.

(** A successful [load_row_values] leaves exactly one entry per pair of the
    range, whatever the vector held and whatever count was passed. *)
Lemma load_row_values_length vals vrng vertex_count r :
  load_row_values vals vrng vertex_count = Ok r -> length r = length vrng.
Proof.
  unfold load_row_values. intros H. apply assign_row_values_length in H.
  rewrite H. apply length_resize.
Qed.

(** [load_row_values] succeeds exactly when every id is below the number of
    pairs. *)
Lemma assign_row_values_ok vrng : forall vals,
  is_Ok (assign_row_values vrng vals)
  = forallb (fun p => fst p <? vec_size vals) vrng.
Proof.
  induction vrng as [|[id val] vrng IH]; intros vals; simpl; [reflexivity|].
  destruct (id <? vec_size vals); [|reflexivity]. simpl.
  rewrite IH. unfold vec_size. rewrite length_insert. reflexivity.
Qed.

End load_vertices_facts.

Lemma load_vertices_length {EV VV} `{!Inhabited VV} (g g' : csr_graph_base EV VV) vrng vertex_count :
  load_vertices g vrng vertex_count = Ok g' ->
  length (row_values_ g') = length vrng
  /\ row_index_ g' = row_index_ g /\ col_index_ g' = col_index_ g.
Proof.
  unfold load_vertices.
  destruct (load_row_values _ _ _) as [r|e] eqn:Hr; simpl; [|discriminate].
  intros [= <-]. simpl. apply load_row_values_length in Hr. auto.
Qed.

(** C10: when several pairs carry the same id, the value kept for that id is
    the one of the last such pair. *)
Theorem load_vertices_last_wins :
  forall (EV VV : Type) (HVV : Inhabited VV) (g g' : csr_graph_base EV VV)
         (before after : list (copyable_vertex_t VV)) (id : N) (val : VV)
         (vertex_count : N),
    load_vertices g (before ++ (id, val) :: after) vertex_count = Ok g' ->
    Forall (fun p => fst p <> id) after ->
    row_values_ g' !! N.to_nat id = Some val
    /\ vertex_value_fn g' (find_vertex g' id) = Some val.
Proof.
  intros EV VV HVV g g' before after id val vc Hload Hlast.
  unfold load_vertices, load_row_values in Hload.
  destruct (assign_row_values _ _) as [r|e] eqn:Hr; simpl in Hload; [|discriminate].
  injection Hload as <-. unfold vertex_value_fn, find_vertex. simpl.
  split; eapply assign_row_values_last; eassumption.
Qed.

Lemma load_vertices_last_wins_witness :
  exists g', load_vertices (routes_graph N) [(1, 5); (0, 6); (1, 7); (2, 8)] 0 = Ok g'
             /\ row_values_ g' !! 1%nat = Some 7.
Proof.
  eexists. split; [reflexivity|].
  apply (proj1 (load_vertices_last_wins N N _ (routes_graph N) _
                  [(1, 5); (0, 6)] [(2, 8)] 1 7 0 eq_refl
                  ltac:(repeat constructor; discriminate))).
Defined.

(** C4: the vector is resized to the number of pairs, not to the largest of
    the vertex count, the count passed by the caller and the number of
    pairs.  On the ten vertex graph, loading two pairs with a count of ten
    leaves two vertex values, and the pair for vertex five is rejected
    although ten values were asked for. *)
Theorem load_vertices_ignores_vertex_count :
  num_vertices (routes_graph N) = 10
  /\ (exists g', load_vertices (routes_graph N) [(0, 7); (1, 8)] 10 = Ok g'
                 /\ vec_size (row_values_ g') = 2)
  /\ load_vertices (routes_graph N) [(5, 7)] 10 = Err (IdOutOfRange 5)
  /\ (exists g', load_vertices (csr_graph_new N N false) [(0, 7)] 3 = Ok g'
                 /\ vec_size (row_values_ g') = 1).
Proof.
  split; [reflexivity|]. split; [eexists; split; reflexivity|].
  split; [reflexivity|]. eexists; split; reflexivity.
Qed.
(** ** Depth-first traversal *)

Lemma is_visited_mark (bitmap : list bool) (v u : N) :
  is_visited bitmap u = true -> is_visited (<[N.to_nat v := true]> bitmap) u = true.
Proof.
  unfold is_visited. intros H.
  destruct (decide (N.to_nat v = N.to_nat u)) as [Heq|Hne].
  - rewrite Heq. destruct (bitmap !! N.to_nat u) as [b|] eqn:Hb.
    + rewrite list_lookup_insert_eq; [reflexivity|]. eapply lookup_lt_Some, Hb.
    + rewrite list_insert_ge; [rewrite Hb; reflexivity|]. apply lookup_ge_None, Hb.
  - rewrite list_lookup_insert_ne by exact Hne. exact H.
Qed.

Lemma is_visited_marked (bitmap : list bool) (v : N) :
  is_visited (<[N.to_nat v := true]> bitmap) v = true.
Proof.
  unfold is_visited.
  destruct (bitmap !! N.to_nat v) as [b|] eqn:Hb.
  - rewrite list_lookup_insert_eq; [reflexivity|]. eapply lookup_lt_Some, Hb.
  - rewrite list_insert_ge; [rewrite Hb; reflexivity|]. apply lookup_ge_None, Hb.
Qed.

Lemma unvisited_mark (bitmap : list bool) : forall i : nat,
  bitmap !! i = Some false -> unvisited bitmap = S (unvisited (<[i := true]> bitmap)).
Proof.
  unfold unvisited.
  induction bitmap as [|b bitmap IH]; intros [|i]; simpl; try discriminate.
  - intros [= ->]. rewrite filter_cons_True by reflexivity.
    rewrite filter_cons_False by discriminate. reflexivity.
  - intros H. destruct b.
    + rewrite !filter_cons_False by discriminate. apply IH, H.
    + rewrite !filter_cons_True by reflexivity. simpl. f_equal. apply IH, H.
Qed.

Section depth_first_search_facts.
Context {EV VV : Type} (g : csr_graph_base EV VV).

Lemma frame_of_vertex (v : N) : frame_vertex (frame_of g v) = v.
Proof. unfold frame_of. destruct (edges_fn g v) as [[? ?]|]; reflexivity. Qed.

Lemma next_unvisited_found bitmap span : forall cur v e cur',
  next_unvisited g bitmap span cur = Some (v, e, cur') ->
  is_visited bitmap v = false /\ target_id_fn g e = Some v
  /\ cur' = S e /\ (cur <= e < cur + span)%nat.
Proof.
  induction span as [|span IH]; intros cur v e cur'; simpl; [discriminate|].
  destruct (target_id_fn g cur) as [w|] eqn:Hw.
  - destruct (is_visited bitmap w) eqn:Hvis.
    + intros H. apply IH in H as (? & ? & ? & ?). repeat split; auto; lia.
    + intros [= <- <- <-]. repeat split; auto; lia.
  - intros H. apply IH in H as (? & ? & ? & ?). repeat split; auto; lia.
Qed.

(** What a yield does to the engine: the discovered vertex was unmarked and
    is marked now, its frame is on top, and the frames under it are a
    suffix of the old stack whose first frame has moved its cursor. *)
Lemma advance_from_yield frames : forall bitmap d bitmap' frames',
  advance_from g bitmap frames = (Some d, (bitmap', frames')) ->
  is_visited bitmap (discovered d) = false
  /\ bitmap' = <[N.to_nat (discovered d) := true]> bitmap
  /\ exists popped top cur' below,
       frames = popped ++ top :: below
       /\ frame_vertex top = discovered_from d
       /\ target_id_fn g (via_edge d) = Some (discovered d)
       /\ frames' = frame_of g (discovered d)
                    :: mk_frame (frame_vertex top) cur' (edge_end top) :: below.
Proof.
  induction frames as [|top below IH]; intros bitmap d bitmap' frames'; simpl.
  - discriminate.
  - destruct (next_unvisited g bitmap _ _) as [[[v e] cur']|] eqn:Hnext.
    + intros [= <- <- <-]. simpl.
      apply next_unvisited_found in Hnext as (Hvis & Htgt & _ & _).
      split; [exact Hvis|]. split; [reflexivity|].
      exists [], top, cur', below. auto.
    + intros H. apply IH in H as (Hvis & Hbm & popped & top' & cur' & below' & -> & ? & ? & ->).
      split; [exact Hvis|]. split; [exact Hbm|].
      exists (top :: popped), top', cur', below'. auto.
Qed.

Lemma advance_from_exhausted frames : forall bitmap bitmap' frames',
  advance_from g bitmap frames = (None, (bitmap', frames')) ->
  bitmap' = bitmap /\ frames' = [].
Proof.
  induction frames as [|top below IH]; intros bitmap bitmap' frames'; simpl.
  - intros [= <- <-]. auto.
  - destruct (next_unvisited g bitmap _ _) as [[[v e] cur']|]; [discriminate|]. apply IH.
Qed.

Lemma advance_unfold st :
  advance g st =
  (let '(d, (bitmap, frames)) :=
     match cancel_ st with
     | cancel_all => (None, (visited st, []))
     | _ => advance_from g (visited st) (pending_frames st)
     end in (d, mk_dfs bitmap frames continue_search)).
Proof. unfold advance, pending_frames. destruct (cancel_ st); reflexivity. Qed.


(** A marked vertex that owns no pending frame stays so over an advance,
    and is not the vertex discovered. *)
Lemma advance_keeps_out (u : N) st d st' :
  is_visited (visited st) u = true ->
  ~ In u (frame_vertex <$> pending_frames st) ->
  advance g st = (d, st') ->
  is_visited (visited st') u = true
  /\ ~ In u (frame_vertex <$> stack st')
  /\ (forall x, d = Some x -> discovered x <> u).
Proof.
  intros Hvis Hout. rewrite advance_unfold.
  assert (Hgen : forall r,
    advance_from g (visited st) (pending_frames st) = r ->
    (let '(d, (bitmap, frames)) := r in (d, mk_dfs bitmap frames continue_search)) = (d, st') ->
    is_visited (visited st') u = true /\ ~ In u (frame_vertex <$> stack st')
    /\ (forall x, d = Some x -> discovered x <> u)).
  { intros [[x|] [bitmap frames]] Hr [= <- <-]; simpl.
    - apply advance_from_yield in Hr
        as (Hnew & -> & popped & top & cur' & below & Hfr & _ & _ & ->).
      assert (Hne : discovered x <> u) by (intros Heq; rewrite Heq in Hnew; congruence).
      split; [apply is_visited_mark, Hvis|]. split.
      + rewrite Hfr, fmap_app, in_app_iff in Hout. simpl in *.
        intros [Hu | [Hu | Hu]].
        * rewrite frame_of_vertex in Hu. exact (Hne Hu).
        * tauto.
        * tauto.
      + intros ? [= <-]. exact Hne.
    - apply advance_from_exhausted in Hr as [-> ->]. simpl.
      split; [exact Hvis|]. split; [tauto | discriminate]. }
  destruct (cancel_ st) eqn:Hc; try (apply Hgen; reflexivity).
  intros [= <- <-]. simpl. split; [exact Hvis|]. split; [tauto | discriminate].
Qed.

(** A marked vertex is never discovered again. *)
Lemma advance_keeps_marked (u : N) st d st' :
  is_visited (visited st) u = true ->
  advance g st = (d, st') ->
  is_visited (visited st') u = true /\ (forall x, d = Some x -> discovered x <> u).
Proof.
  intros Hvis. rewrite advance_unfold.
  assert (Hgen : forall r,
    advance_from g (visited st) (pending_frames st) = r ->
    (let '(d, (bitmap, frames)) := r in (d, mk_dfs bitmap frames continue_search)) = (d, st') ->
    is_visited (visited st') u = true /\ (forall x, d = Some x -> discovered x <> u)).
  { intros [[x|] [bitmap frames]] Hr [= <- <-]; simpl.
    - apply advance_from_yield in Hr as (Hnew & -> & _).
      split; [apply is_visited_mark, Hvis|].
      intros ? [= <-] Heq. rewrite Heq in Hnew. congruence.
    - apply advance_from_exhausted in Hr as [-> ->]. split; [exact Hvis | discriminate]. }
  destruct (cancel_ st) eqn:Hc; try (apply Hgen; reflexivity).
  intros [= <- <-]. simpl. split; [exact Hvis | discriminate].
Qed.

Lemma pending_frames_cancel st policy x :
  In x (frame_vertex <$> pending_frames (cancel st policy)) ->
  In x (frame_vertex <$> stack st).
Proof.
  unfold pending_frames, cancel. simpl. destruct policy; simpl; try tauto.
  destruct (stack st); simpl; tauto.
Qed.

Lemma dfs_run_keeps_out (u : N) client fuel : forall st,
  is_visited (visited st) u = true ->
  ~ In u (frame_vertex <$> pending_frames st) ->
  Forall (fun '(d, s) => discovered d <> u /\ ~ In u (frame_vertex <$> stack s))
         (fst (dfs_run g fuel client st)).
Proof.
  induction fuel as [|fuel IH]; intros st Hvis Hout; simpl; [constructor|].
  destruct (advance g st) as [[d|] st'] eqn:Hadv; [|constructor].
  destruct (advance_keeps_out u st _ st' Hvis Hout Hadv) as (Hvis' & Hout' & Hne).
  specialize (IH (cancel st' (client d)) Hvis'
                 (fun H => Hout' (pending_frames_cancel _ _ _ H))).
  destruct (dfs_run g fuel client (cancel st' (client d))) as [rest ex].
  simpl in *. constructor; [|exact IH]. split; [apply Hne; reflexivity | exact Hout'].
Qed.

Lemma dfs_run_keeps_marked (u : N) client fuel : forall st,
  is_visited (visited st) u = true ->
  Forall (fun '(d, s) => discovered d <> u) (fst (dfs_run g fuel client st)).
Proof.
  induction fuel as [|fuel IH]; intros st Hvis; simpl; [constructor|].
  destruct (advance g st) as [[d|] st'] eqn:Hadv; [|constructor].
  destruct (advance_keeps_marked u st _ st' Hvis Hadv) as (Hvis' & Hne).
  specialize (IH (cancel st' (client d)) Hvis').
  destruct (dfs_run g fuel client (cancel st' (client d))) as [rest ex].
  simpl in *. constructor; [apply Hne; reflexivity | exact IH].
Qed.

(** Every advance that yields marks a vertex that was not marked. *)
Lemma advance_marks_one st d st' :
  advance g st = (Some d, st') -> unvisited (visited st) = S (unvisited (visited st')).
Proof.
  rewrite advance_unfold.
  destruct (match cancel_ st with cancel_all => _ | _ => _ end)
    as [[x|] [bitmap frames]] eqn:Hr; intros [= <- <-]; simpl.
  destruct (cancel_ st); try discriminate;
    apply advance_from_yield in Hr as (Hnew & -> & _);
    apply unvisited_mark; unfold is_visited in Hnew;
    destruct (visited st !! N.to_nat (discovered x)) as [[|]|]; congruence.
Qed.

(** With one advance per unmarked vertex and one more, the traversal
    reaches exhaustion. *)
Lemma dfs_run_exhausts client fuel : forall st,
  (unvisited (visited st) < fuel)%nat -> snd (dfs_run g fuel client st) = true.
Proof.
  induction fuel as [|fuel IH]; intros st Hfuel; simpl; [lia|].
  destruct (advance g st) as [[d|] st'] eqn:Hadv; [|reflexivity].
  apply advance_marks_one in Hadv.
  specialize (IH (cancel st' (client d))). simpl in IH.
  destruct (dfs_run g fuel client (cancel st' (client d))) as [rest ex].
  simpl in *. apply IH. lia.
Qed.

Lemma dfs_all_exhausts client st : snd (dfs_all g client st) = true.
Proof. apply dfs_run_exhausts. lia. Qed.

(** More fuel does not change a traversal that reached exhaustion. *)
Lemma dfs_run_more_fuel client fuel : forall st events fuel',
  dfs_run g fuel client st = (events, true) ->
  (fuel <= fuel')%nat ->
  dfs_run g fuel' client st = (events, true).
Proof.
  induction fuel as [|fuel IH]; intros st events fuel'; simpl; [discriminate|].
  intros Hrun Hle. destruct fuel' as [|fuel']; [lia|]. simpl.
  destruct (advance g st) as [[d|] st'] eqn:Hadv; [|exact Hrun].
  destruct (dfs_run g fuel client (cancel st' (client d))) as [rest ex] eqn:Hrest.
  injection Hrun as <- ->.
  rewrite (IH _ _ fuel' Hrest) by lia. reflexivity.
Qed.

(** The stack only ever holds marked vertices. *)
Lemma dfs_init_marked seed st : dfs_init g seed = Some st -> stack_marked st.
Proof.
  unfold dfs_init. destruct (seed <? num_vertices g); [|discriminate].
  intros [= <-]. unfold stack_marked. simpl. constructor; [|constructor].
  rewrite frame_of_vertex. apply is_visited_marked.
Qed.

Lemma advance_from_marked frames bitmap d bitmap' frames' :
  Forall (fun f => is_visited bitmap (frame_vertex f) = true) frames ->
  advance_from g bitmap frames = (d, (bitmap', frames')) ->
  Forall (fun f => is_visited bitmap' (frame_vertex f) = true) frames'.
Proof.
  intros Hm Hr. destruct d as [x|].
  - apply advance_from_yield in Hr
      as (_ & -> & popped & top & cur' & below & -> & _ & _ & ->).
    apply Forall_app in Hm as [_ Hm]. apply Forall_cons in Hm as [Htop Hbelow].
    constructor; [rewrite frame_of_vertex; apply is_visited_marked|].
    constructor; [apply is_visited_mark, Htop|].
    eapply Forall_impl; [exact Hbelow|]. intros f Hf. apply is_visited_mark, Hf.
  - apply advance_from_exhausted in Hr as [-> ->]. constructor.
Qed.

Lemma advance_marked st d st' :
  stack_marked st -> advance g st = (d, st') -> stack_marked st'.
Proof.
  unfold stack_marked. intros Hm.
  assert (Hp : Forall (fun f => is_visited (visited st) (frame_vertex f) = true)
                      (tail (stack st))).
  { destruct (stack st); [constructor|]. apply Forall_cons in Hm. apply Hm. }
  unfold advance. destruct (cancel_ st).
  - destruct (advance_from g (visited st) (stack st)) as [d' [bitmap frames]] eqn:Hr.
    intros [= <- <-]. simpl. exact (advance_from_marked _ _ _ _ _ Hm Hr).
  - destruct (advance_from g (visited st) (tail (stack st))) as [d' [bitmap frames]] eqn:Hr.
    intros [= <- <-]. simpl. exact (advance_from_marked _ _ _ _ _ Hp Hr).
  - intros [= <- <-]. constructor.
Qed.

(** The state right after a yield. *)
Lemma advance_yield_shape st d st' :
  stack_marked st ->
  advance g st = (Some d, st') ->
  is_visited (visited st) (discovered d) = false
  /\ visited st' = <[N.to_nat (discovered d) := true]> (visited st)
  /\ exists below,
       stack st' = frame_of g (discovered d) :: below
       /\ Forall (fun f => is_visited (visited st) (frame_vertex f) = true) below.
Proof.
  unfold stack_marked. intros Hm.
  assert (Hp : Forall (fun f => is_visited (visited st) (frame_vertex f) = true)
                      (tail (stack st))).
  { destruct (stack st); [constructor|]. apply Forall_cons in Hm. apply Hm. }
  assert (Hgen : forall frames,
    Forall (fun f => is_visited (visited st) (frame_vertex f) = true) frames ->
    forall bitmap' frames',
    advance_from g (visited st) frames = (Some d, (bitmap', frames')) ->
    is_visited (visited st) (discovered d) = false
    /\ bitmap' = <[N.to_nat (discovered d) := true]> (visited st)
    /\ exists below,
         frames' = frame_of g (discovered d) :: below
         /\ Forall (fun f => is_visited (visited st) (frame_vertex f) = true) below).
  { intros frames Hfr bitmap' frames' Hr.
    apply advance_from_yield in Hr
      as (Hnew & -> & popped & top & cur' & below & -> & _ & _ & ->).
    split; [exact Hnew|]. split; [reflexivity|].
    apply Forall_app in Hfr as [_ Hfr]. apply Forall_cons in Hfr as [Htop Hbelow].
    eexists. split; [reflexivity|]. constructor; assumption. }
  unfold advance. destruct (cancel_ st).
  - destruct (advance_from g (visited st) (stack st)) as [d' [bitmap frames]] eqn:Hr.
    intros [= -> <-]. simpl. exact (Hgen _ Hm _ _ Hr).
  - destruct (advance_from g (visited st) (tail (stack st))) as [d' [bitmap frames]] eqn:Hr.
    intros [= -> <-]. simpl. exact (Hgen _ Hp _ _ Hr).
  - discriminate.
Qed.

End depth_first_search_facts.

(** C7: on the ten vertex routes graph the complete depth-first vertex
    traversal from seed 0 reaches exhaustion after exactly nine elements,
    the vertices 1, 2, 3, 8, 4, 5, 9, 7, 6 in this order, and the seed is
    not among them.  On any graph, and whatever the loop body cancels, the
    seed is never yielded and the traversal reaches exhaustion. *)
Theorem dfs_vertex_range_routes :
  (exists ids,
     dfs_vertex_range (routes_graph unit) no_cancel 0 = Some (ids, true)
     /\ ids = [1; 2; 3; 8; 4; 5; 9; 7; 6]
     /\ length ids = 9%nat
     /\ ~ In 0 ids)
  /\ (forall (EV VV : Type) (g : csr_graph_base EV VV)
             (client : discovery -> cancel_search) (seed : N)
             (ids : list N) (exhausted : bool),
        dfs_vertex_range g client seed = Some (ids, exhausted) ->
        ~ In seed ids /\ exhausted = true).
Proof.
  split.
  - exists [1; 2; 3; 8; 4; 5; 9; 7; 6].
    split; [vm_compute; reflexivity|]. split; [reflexivity|]. split; [reflexivity|].
    simpl. intros H. repeat (destruct H as [H|H]; [discriminate|]). exact H.
  - intros EV VV g client seed ids exhausted. unfold dfs_vertex_range.
    destruct (dfs_init g seed) as [st|] eqn:Hinit; [|discriminate].
    pose proof (dfs_all_exhausts g client st) as Hex.
    assert (Hseed : is_visited (visited st) seed = true).
    { unfold dfs_init in Hinit. destruct (seed <? num_vertices g); [|discriminate].
      injection Hinit as <-. apply is_visited_marked. }
    pose proof (dfs_run_keeps_marked g seed client (S (unvisited (visited st))) st Hseed)
      as Hall.
    unfold dfs_all in *.
    destruct (dfs_run g (S (unvisited (visited st))) client st) as [events ex].
    simpl in *. intros [= <- <-]. split; [|exact Hex].
    intros Hin. apply in_map_iff in Hin as (d & Hd & Hin).
    apply in_map_iff in Hin as ([d' s] & Hd' & Hin). simpl in Hd'. subst d'.
    rewrite Forall_forall in Hall. apply list_elem_of_In in Hin.
    specialize (Hall _ Hin). simpl in Hall. exact (Hall Hd).
Qed.

Lemma dfs_vertex_range_routes_witness :
  ~ In 0 [1; 2; 3; 8; 4; 6] /\ true = true.
Proof.
  apply (proj2 dfs_vertex_range_routes N unit (routes_graph unit)
               (cancel_at 4 cancel_branch) 0 [1; 2; 3; 8; 4; 6] true).
  vm_compute. reflexivity.
Defined.

(** C8: after a yield the top frame is the one of the vertex just yielded.
    [cancel(cancel_branch)] makes the next advance run as a plain advance
    on the stack without that one frame, and from then on no element is
    the yielded vertex or has it among its ancestors.  On the routes graph,
    cancelling the branch at vertex 4 skips 5, 9 and 7: six elements are
    yielded by the vertex view and by the edge view. *)
Theorem cancel_branch_pops_one_frame :
  (forall (EV VV : Type) (g : csr_graph_base EV VV) (st st' : dfs_state) (d : discovery),
     stack_marked st ->
     advance g st = (Some d, st') ->
     (exists below,
        stack st' = frame_of g (discovered d) :: below
        /\ depth (mk_dfs (visited st') below continue_search) = (depth st' - 1)%nat
        /\ advance g (cancel st' cancel_branch)
           = advance g (mk_dfs (visited st') below continue_search))
     /\ (forall fuel client,
           Forall (fun '(d2, s2) =>
                     discovered d2 <> discovered d /\ ~ In (discovered d) (ancestors s2))
                  (fst (dfs_run g fuel client (cancel st' cancel_branch)))))
  /\ (exists ids,
        dfs_vertex_range (routes_graph unit) (cancel_at 4 cancel_branch) 0 = Some (ids, true)
        /\ ids = [1; 2; 3; 8; 4; 6]
        /\ length ids = 6%nat
        /\ ~ In 5 ids /\ ~ In 9 ids /\ ~ In 7 ids)
  /\ (exists es,
        dfs_edge_range (routes_graph unit) (cancel_at 4 cancel_branch) 0 = Some (es, true)
        /\ fst <$> es = [1; 2; 3; 8; 4; 6]
        /\ length es = 6%nat).
Proof.
  split; [|split].
  - intros EV VV g st st' d Hm Hadv.
    destruct (advance_yield_shape g st d st' Hm Hadv) as (Hnew & Hbm & below & Hst & Hbelow).
    split.
    + exists below. split; [exact Hst|]. split.
      * unfold depth. rewrite Hst. simpl. lia.
      * unfold advance, cancel. simpl. rewrite Hst. reflexivity.
    + intros fuel client.
      assert (Hout : ~ In (discovered d)
                       (frame_vertex <$> pending_frames (cancel st' cancel_branch))).
      { unfold pending_frames, cancel. simpl. rewrite Hst. simpl.
        intros Hin. apply in_map_iff in Hin as (f & Hf & Hin).
        rewrite Forall_forall in Hbelow. apply list_elem_of_In in Hin.
        specialize (Hbelow _ Hin). rewrite Hf in Hbelow. congruence. }
      assert (Hvis : is_visited (visited (cancel st' cancel_branch)) (discovered d) = true).
      { unfold cancel. simpl. rewrite Hbm. apply is_visited_marked. }
      pose proof (dfs_run_keeps_out g (discovered d) client fuel _ Hvis Hout) as Hall.
      eapply Forall_impl; [exact Hall|]. intros [d2 s2] [Hne Hnin].
      split; [exact Hne|]. unfold ancestors. intros Hin. apply Hnin.
      destruct (stack s2); simpl in *; tauto.
  - exists [1; 2; 3; 8; 4; 6]. split; [vm_compute; reflexivity|].
    split; [reflexivity|]. split; [reflexivity|].
    repeat split; simpl; intros H;
      repeat (destruct H as [H|H]; [discriminate|]); exact H.
  - eexists. split; [vm_compute; reflexivity|]. split; reflexivity.
Qed.

Lemma cancel_branch_pops_one_frame_witness :
  advance (routes_graph unit)
          (mk_dfs (true :: replicate 9 false) [mk_frame 0 0 3] continue_search)
  = (Some (mk_discovery 0 1 0),
     mk_dfs (true :: true :: replicate 8 false) [mk_frame 1 3 4; mk_frame 0 1 3]
            continue_search)
  /\ Forall (fun '(d2, s2) => discovered d2 <> 1 /\ ~ In 1 (ancestors s2))
            (fst (dfs_run (routes_graph unit) 10 no_cancel
                    (cancel (mk_dfs (true :: true :: replicate 8 false)
                                    [mk_frame 1 3 4; mk_frame 0 1 3] continue_search)
                            cancel_branch))).
Proof.
  split; [reflexivity|].
  apply (proj1 cancel_branch_pops_one_frame N unit (routes_graph unit)
               (mk_dfs (true :: replicate 9 false) [mk_frame 0 0 3] continue_search)
               (mk_dfs (true :: true :: replicate 8 false)
                       [mk_frame 1 3 4; mk_frame 0 1 3] continue_search)
               (mk_discovery 0 1 0)).
  - repeat constructor.
  - reflexivity.
Defined.
(** ** Structure of a loaded graph *)

Lemma to_VId_small (x : N) : x < VId_modulus -> to_VId x = x.
Proof. apply N.mod_small. Qed.

Lemma to_size_type_small (x : N) : x < VId_modulus -> to_size_type (x + 1) = x + 1.
Proof.
  intros H. apply N.mod_small. unfold VId_modulus in H. unfold size_type_modulus.
  simpl in *. lia.
Qed.

Lemma StronglySorted_le_lookup (l : list N) (i j : nat) (a b : N) :
  StronglySorted N.le l -> (i <= j)%nat -> l !! i = Some a -> l !! j = Some b -> a <= b.
Proof.
  intros Hs. revert i j. induction Hs as [|x l Hs IH Hall]; intros i j Hij Ha Hb.
  - discriminate.
  - destruct i as [|i], j as [|j]; simpl in *; try lia.
    + injection Ha as <-. injection Hb as <-. lia.
    + injection Ha as <-. rewrite Forall_forall in Hall.
      apply Hall. eapply list_elem_of_lookup_2, Hb.
    + eapply IH; [|exact Ha|exact Hb]. lia.
Qed.

Lemma StronglySorted_le_pad (l : list N) (k : N) (n : nat) :
  StronglySorted N.le l -> Forall (fun r => r <= k) l ->
  StronglySorted N.le (l ++ replicate n k).
Proof.
  intros Hs Hall. apply StronglySorted_app_2; [|exact Hs|].
  - intros x1 x2 H1 H2. apply elem_of_replicate in H2 as [-> _].
    rewrite Forall_forall in Hall. apply Hall, H1.
  - induction n as [|n IH]; simpl; constructor; [exact IH|].
    apply Forall_forall. intros x Hx. apply elem_of_replicate in Hx as [-> _]. lia.
Qed.

Lemma StronglySorted_le_resize (l : list N) (k : N) (n : nat) :
  StronglySorted N.le l -> Forall (fun r => r <= k) l ->
  StronglySorted N.le (resize n k l).
Proof.
  intros Hs Hall. rewrite resize_spec. apply StronglySorted_le_pad.
  - rewrite <- (take_drop n l) in Hs. eapply StronglySorted_app_1_l, Hs.
  - apply Forall_take, Hall.
Qed.

Lemma Forall_resize {A} (P : A -> Prop) (l : list A) (k : A) (n : nat) :
  Forall P l -> P k -> Forall P (resize n k l).
Proof.
  intros Hall Hk. rewrite resize_spec. apply Forall_app. split.
  - apply Forall_take, Hall.
  - apply Forall_replicate, Hk.
Qed.

Section load_edges_structure.
Context {EV VV : Type} `{!Inhabited VV}.
Implicit Types (g : csr_graph_base EV VV) (erng : list (copyable_edge_t EV)).

(** One iteration of the loop keeps the invariant. *)
Lemma add_edge_invariant g e max_vid :
  loop_invariant g max_vid ->
  vec_size (col_index_ g) + 1 < VId_modulus ->
  source_id e + 1 < VId_modulus ->
  target_id e + 1 < VId_modulus ->
  loop_invariant (add_edge g e) (N.max max_vid (target_id e)).
Proof.
  intros ((v_ & Hv & Hlen) & Hs & Hb & Hhd & Hmx & Hrows & Hmax) Hcols Hsrc Htgt.
  assert (Hfill : to_VId (col_values_size (col_values_ g)) = vec_size (col_index_ g)).
  { rewrite Hv. simpl. unfold vec_size in *. rewrite Hlen. apply to_VId_small. lia. }
  unfold loop_invariant, add_edge. simpl. rewrite Hfill, Hv. simpl.
  assert (Hsz : vec_size (col_index_ g ++ [target_id e]) = vec_size (col_index_ g) + 1).
  { unfold vec_size. rewrite length_app. simpl. lia. }
  split; [|split; [|split; [|split; [|split; [|split]]]]].
  - eexists. split; [reflexivity|]. rewrite !length_app, Hlen. reflexivity.
  - apply StronglySorted_le_resize; assumption.
  - rewrite Hsz. apply Forall_resize; [|lia].
    eapply Forall_impl; [exact Hb|]. simpl. intros; lia.
  - replace (N.to_nat (source_id e + 1)) with (S (N.to_nat (source_id e))) by lia.
    destruct (row_index_ g) as [|r rows]; simpl.
    + rewrite Hhd. reflexivity.
    + exact Hhd.
  - apply Forall_app. split.
    + eapply Forall_impl; [exact Hmx|]. simpl. intros; lia.
    + constructor; [lia | constructor].
  - unfold vec_size. rewrite length_resize. lia.
  - lia.
Qed.

(** The loop keeps the invariant, appends every target and value in input
    order, leaves the vertex values alone and opens at least one row. *)
Lemma add_edges_invariant erng : forall position g last_uid max_vid g' max_vid',
  add_edges position erng g last_uid max_vid = Ok (g', max_vid') ->
  loop_invariant g max_vid ->
  vec_size (col_index_ g) + vec_size erng < VId_modulus ->
  Forall (fun e => source_id e + 1 < VId_modulus /\ target_id e + 1 < VId_modulus) erng ->
  loop_invariant g' max_vid'
  /\ col_index_ g' = col_index_ g ++ (target_id <$> erng)
  /\ (forall v_, col_values_ g = col_values v_ ->
                 col_values_ g' = col_values (v_ ++ (value <$> erng)))
  /\ row_values_ g' = row_values_ g
  /\ (erng <> [] \/ row_index_ g <> [] -> row_index_ g' <> []).
Proof.
  induction erng as [|e erng IH]; intros position g last_uid max_vid g' max_vid'; simpl.
  - intros [= <- <-] Hinv _ _. rewrite app_nil_r.
    split; [exact Hinv|]. split; [reflexivity|].
    split; [intros v_ ->; rewrite app_nil_r; reflexivity|].
    split; [reflexivity | intros [H|H]; [congruence | exact H]].
  - destruct (source_id e <? last_uid); [discriminate|].
    intros Hloop Hinv Hsz Hall. apply Forall_cons in Hall as [[Hsrc Htgt] Hall].
    assert (Hsz' : vec_size (e :: erng) = vec_size erng + 1)
      by (unfold vec_size; simpl; lia).
    apply IH in Hloop as (Hinv' & Hcols & Hvals & Hrv & Hrows).
    + split; [exact Hinv'|]. split; [|split; [|split]].
      * rewrite Hcols. simpl. rewrite <- app_assoc. reflexivity.
      * intros v_ Hv. rewrite (Hvals (v_ ++ [value e])).
        -- rewrite <- app_assoc. reflexivity.
        -- simpl. rewrite Hv. reflexivity.
      * rewrite Hrv. reflexivity.
      * intros _. apply Hrows. right. simpl.
        replace (N.to_nat (source_id e + 1)) with (S (N.to_nat (source_id e))) by lia.
        destruct (row_index_ g); discriminate.
    + apply add_edge_invariant; try assumption. lia.
    + simpl. unfold vec_size in *. rewrite length_app. simpl. lia.
    + exact Hall.
Qed.

Lemma VId_large_enough_spec erng vertex_count :
  VId_large_enough erng vertex_count = true ->
  vec_size erng < VId_modulus /\ vertex_count < VId_modulus
  /\ Forall (fun e => source_id e + 1 < VId_modulus /\ target_id e + 1 < VId_modulus) erng.
Proof.
  unfold VId_large_enough. intros H.
  apply andb_prop in H as [H Hall]. apply andb_prop in H as [Hsz Hvc].
  apply N.ltb_lt in Hsz, Hvc. split; [exact Hsz|]. split; [exact Hvc|].
  apply Forall_forall. intros e He. apply list_elem_of_In in He.
  rewrite forallb_forall in Hall. specialize (Hall e He).
  apply andb_prop in Hall as [H1 H2]. apply N.ltb_lt in H1, H2. auto.
Qed.

Lemma last_erng_id_small bidirectional_range erng :
  Forall (fun e => source_id e + 1 < VId_modulus /\ target_id e + 1 < VId_modulus) erng ->
  last_erng_id bidirectional_range erng + 1 < VId_modulus.
Proof.
  intros Hall. unfold last_erng_id.
  assert (H1 : 0 + 1 < VId_modulus) by (unfold VId_modulus; simpl; lia).
  destruct bidirectional_range; [|exact H1].
  destruct (list.last erng) as [e|] eqn:Hlast; [|exact H1].
  rewrite Forall_forall in Hall.
  destruct (Hall e) as [Hs Ht].
  - apply last_Some in Hlast as [l' ->]. apply elem_of_app. right. constructor.
  - lia.
Qed.

Lemma loop_invariant_empty g :
  graph_is_empty g = true ->
  (exists v_, col_values_ g = col_values v_) ->
  loop_invariant g 0 /\ col_values_ g = col_values [] /\ col_index_ g = []
  /\ row_index_ g = [].
Proof.
  unfold graph_is_empty, loop_invariant. intros Hempty [v_ Hv].
  apply andb_prop in Hempty as [Hrc Hvals]. apply andb_prop in Hrc as [Hrows Hcols].
  destruct g as [vals cv rows cols]; simpl in *. subst cv. simpl in Hvals.
  destruct rows; [|discriminate]. destruct cols; [|discriminate].
  destruct v_; [|discriminate].
  assert (H1 : 0 + 1 < VId_modulus) by (unfold VId_modulus; simpl; lia).
  split; [|auto].
  split; [exists []; auto|]. split; [constructor|]. split; [constructor|].
  split; [reflexivity|]. split; [constructor|]. split; [|exact H1].
  unfold vec_size. simpl. lia.
Qed.

(** The layout [load_edges] builds from a non-empty range in a graph that
    stores edge values, when [vertex_id_type] is large enough: [S n] rows
    for [n] vertices, non-decreasing from 0 to the number of edges, and
    targets and values in input order. *)
Lemma load_edges_structure bidirectional_range g erng vertex_count edge_count g' :
  load_edges bidirectional_range g erng vertex_count edge_count = Ok g' ->
  (exists v_, col_values_ g = col_values v_) ->
  erng <> [] ->
  VId_large_enough erng vertex_count = true ->
  exists n : nat,
    length (row_index_ g') = S n
    /\ StronglySorted N.le (row_index_ g')
    /\ row_index_ g' !! 0%nat = Some 0
    /\ row_index_ g' !! n = Some (vec_size erng)
    /\ Forall (fun r => r <= vec_size erng) (row_index_ g')
    /\ col_index_ g' = (target_id <$> erng)
    /\ col_values_ g' = col_values (value <$> erng)
    /\ Forall (fun t => t < N.of_nat n) (target_id <$> erng)
    /\ N.of_nat n < VId_modulus.
Proof.
  intros Hload Hvals Hne Hfit.
  apply VId_large_enough_spec in Hfit as (Hsz & Hvc & Hall).
  unfold load_edges in Hload. fold (graph_is_empty g) in Hload.
  destruct (graph_is_empty g) eqn:Hempty; [|discriminate]. simpl in Hload.
  destruct (loop_invariant_empty g Hempty Hvals) as (Hinv & Hv0 & Hc0 & _).
  destruct erng as [|e0 erng0] eqn:Herng; [congruence|]. rewrite <- Herng in *.
  destruct (add_edges 0 erng g 0 0) as [[g1 mx]|err] eqn:Hloop; [|discriminate].
  simpl in Hload. injection Hload as <-.
  apply add_edges_invariant in Hloop as (Hinv1 & Hcols & Hvals1 & _ & Hrows);
    [|exact Hinv| rewrite Hc0; unfold vec_size in *; simpl; lia |exact Hall].
  specialize (Hvals1 [] Hv0). specialize (Hrows (or_introl Hne)).
  rewrite Hc0 in Hcols. simpl in Hcols, Hvals1.
  destruct Hinv1 as ((v_ & Hv & Hlen) & Hs & Hb & Hhd & Hmx & Hrsz & Hmax).
  pose proof (last_erng_id_small bidirectional_range erng Hall) as Hlast.
  assert (Hcsz : vec_size (col_index_ g1) = vec_size erng).
  { rewrite Hcols. unfold vec_size. rewrite length_fmap. reflexivity. }
  assert (Hfill : to_VId (col_values_size (col_values_ g1)) = vec_size erng).
  { rewrite Hvals1. simpl. unfold vec_size. rewrite length_fmap.
    apply to_VId_small. exact Hsz. }
  unfold finish_rows. simpl. rewrite Hfill.
  rewrite (to_VId_small (last_erng_id bidirectional_range erng + 1)) by exact Hlast.
  rewrite (to_VId_small (mx + 1)) by exact Hmax.
  set (vc := N.max (N.max vertex_count (last_erng_id bidirectional_range erng + 1))
                   (N.max (vec_size (row_index_ g1)) (mx + 1))).
  assert (Hvcs : vc < VId_modulus) by (unfold vc; lia).
  assert (Hge : (length (row_index_ g1) <= N.to_nat vc)%nat)
    by (unfold vc, vec_size; lia).
  rewrite (to_size_type_small vc) by exact Hvcs.
  replace (N.to_nat (vc + 1)) with (S (N.to_nat vc)) by lia.
  rewrite resize_ge by lia.
  rewrite Hcsz in Hb.
  exists (N.to_nat vc).
  split; [rewrite length_app, length_replicate; lia|].
  split; [apply StronglySorted_le_pad; assumption|].
  split.
  { destruct (row_index_ g1) as [|r rows]; [congruence|]. simpl. rewrite Hhd. reflexivity. }
  split.
  { rewrite lookup_app_r by exact Hge. apply lookup_replicate_2. lia. }
  split.
  { apply Forall_app. split; [exact Hb|]. apply Forall_replicate. lia. }
  split; [exact Hcols|]. split; [exact Hvals1|].
  split; [|lia].
  rewrite <- Hcols. eapply Forall_impl; [exact Hmx|]. simpl. intros t Ht.
  unfold vc. lia.
Qed.

End load_edges_structure.

(** ** Reading the edges back *)

Lemma mapM_lookup_seq {A} (l : list A) (n : nat) : forall a : nat,
  (a + n <= length l)%nat ->
  mapM (fun i => l !! i) (seq a n) = Some (take n (drop a l)).
Proof.
  induction n as [|n IH]; intros a Hlen; simpl.
  - rewrite take_0. reflexivity.
  - destruct (lookup_lt_is_Some_2 l a) as [x Hx]; [lia|].
    rewrite Hx. simpl. rewrite IH by lia. simpl.
    rewrite (drop_S l x a Hx). reflexivity.
Qed.

(** Consecutive slices of non-decreasing offsets starting at 0 add up to a
    prefix. *)
Lemma concat_row_slices {A} (items : list A) (r : nat -> nat) (n : nat) :
  r 0%nat = 0%nat ->
  (forall i, (i < n)%nat -> (r i <= r (S i))%nat) ->
  concat (row_slice items r <$> seq 0 n) = take (r n) items.
Proof.
  intros H0. induction n as [|n IH]; intros Hmono.
  - simpl. rewrite H0. reflexivity.
  - rewrite seq_S, fmap_app, concat_app, IH by (intros; apply Hmono; lia).
    simpl. rewrite app_nil_r. unfold row_slice.
    rewrite take_take_drop. f_equal. specialize (Hmono n). lia.
Qed.

Section flatten_facts.
Context {EV VV : Type}.
Implicit Types (g : csr_graph_base EV VV).

(** On a graph laid out as [load_edges] leaves it, walking the edges of
    every vertex in turn reads a vector parallel to the columns from its
    first to its last element. *)
Lemma flatten_edges_layout {A} (read : csr_graph_base EV VV -> nat -> option A)
    g (items : list A) (n : nat) :
  (forall i, read g i = items !! i) ->
  length items = length (col_index_ g) ->
  length (row_index_ g) = S n ->
  StronglySorted N.le (row_index_ g) ->
  row_index_ g !! 0%nat = Some 0 ->
  row_index_ g !! n = Some (vec_size (col_index_ g)) ->
  Forall (fun r => r <= vec_size (col_index_ g)) (row_index_ g) ->
  N.of_nat n < VId_modulus ->
  flatten_edges read g = Some items.
Proof.
  intros Hread Hitems Hlen Hs H0 Hn Hb Hfit.
  set (r := fun i : nat => N.to_nat (default 0 (row_index_ g !! i))).
  assert (Hverts : vertices_fn g = seq 0 n).
  { unfold vertices_fn. destruct (row_index_ g); [discriminate|]. simpl in *.
    f_equal. lia. }
  assert (Hout : forall i, (i < n)%nat ->
            out_edges read g (vertex_id_fn g i) = Some (row_slice items r i)).
  { intros i Hi. unfold out_edges, edges_fn, vertex_id_fn.
    rewrite (to_VId_small (N.of_nat i)) by lia.
    rewrite (to_VId_small (N.of_nat i + 1)) by lia.
    replace (N.to_nat (N.of_nat i + 1)) with (S i) by lia.
    rewrite Nat2N.id.
    destruct (N.ltb_spec (N.of_nat i + 1) (vec_size (row_index_ g))) as [_|Hge];
      [|unfold vec_size in Hge; lia].
    simpl.
    destruct (lookup_lt_is_Some_2 (row_index_ g) (S i)) as [b Hb']; [lia|].
    destruct (lookup_lt_is_Some_2 (row_index_ g) i) as [a Ha']; [lia|].
    rewrite Hb', Ha'.
    assert (Hab : a <= b) by (eapply (StronglySorted_le_lookup _ i (S i)); eauto).
    assert (Hbb : b <= vec_size (col_index_ g)).
    { rewrite Forall_forall in Hb. eapply Hb, list_elem_of_lookup_2, Hb'. }
    destruct (N.leb_spec b (vec_size (col_index_ g))) as [_|Hgt]; [|lia].
    simpl. unfold range_elements. simpl.
    rewrite (mapM_ext _ (fun i => items !! i)) by exact Hread.
    rewrite mapM_lookup_seq by (unfold vec_size in Hbb; lia).
    unfold row_slice, r. rewrite Hb', Ha'. reflexivity. }
  unfold flatten_edges. rewrite Hverts.
  assert (Hmap : mapM (fun u => out_edges read g (vertex_id_fn g u)) (seq 0 n)
                 = Some (row_slice items r <$> seq 0 n)).
  { apply mapM_Some. apply Forall2_fmap_r, Forall_Forall2_diag, Forall_forall.
    intros i Hi. apply elem_of_seq in Hi. apply Hout. lia. }
  rewrite Hmap. f_equal. rewrite concat_row_slices.
  - unfold r. rewrite Hn. simpl. unfold vec_size. rewrite Nat2N.id, <- Hitems.
    apply firstn_all.
  - unfold r. rewrite H0. reflexivity.
  - intros i Hi. unfold r.
    destruct (lookup_lt_is_Some_2 (row_index_ g) (S i)) as [b Hb']; [lia|].
    destruct (lookup_lt_is_Some_2 (row_index_ g) i) as [a Ha']; [lia|].
    rewrite Hb', Ha'. simpl.
    assert (Hab : a <= b) by (eapply (StronglySorted_le_lookup _ i (S i)); eauto).
    lia.
Qed.

End flatten_facts.

(** A load into a new graph that stores edge values succeeds on every
    range ordered by source and, when [vertex_id_type] is large enough,
    walking [edges(g, v)] for every vertex in turn gives back the targets
    and the values of the range in input order. *)
Lemma load_edges_round_trip (EV VV : Type) `{!Inhabited VV} (bidirectional_range : bool)
    (erng : list (copyable_edge_t EV)) (vertex_count edge_count : N) :
  Sorted N.le (source_id <$> erng) ->
  VId_large_enough erng vertex_count = true ->
  exists g',
    load_edges bidirectional_range (csr_graph_new EV VV false) erng vertex_count edge_count
    = Ok g'
    /\ flatten_target_ids g' = Some (target_id <$> erng)
    /\ flatten_edge_values g' = Some (value <$> erng).
Proof.
  intros Hsorted Hfit.
  destruct erng as [|e0 erng0] eqn:Herng.
  { eexists. split; [reflexivity|]. split; reflexivity. }
  rewrite <- Herng in *.
  assert (Hne : erng <> []) by (rewrite Herng; discriminate).
  destruct (add_edges_sorted (VV:=VV) erng 0%nat (csr_graph_new EV VV false) 0 0
              (Sorted_from_zero _ Hsorted)) as (g1 & mx & Hloop).
  set (vc0 := N.max vertex_count (to_VId (last_erng_id bidirectional_range erng + 1))).
  exists (finish_rows vc0 g1 mx).
  assert (Hload : load_edges bidirectional_range (csr_graph_new EV VV false) erng
                    vertex_count edge_count = Ok (finish_rows vc0 g1 mx)).
  { unfold load_edges. simpl. rewrite Herng at 1. rewrite Hloop. reflexivity. }
  split; [exact Hload|].
  destruct (load_edges_structure _ _ _ _ _ _ Hload) as
    (n & Hlen & Hs & H0 & Hn & Hb & Hcols & Hvals & _ & Hnfit);
    [exists []; reflexivity | exact Hne | exact Hfit |].
  assert (Hsz : vec_size erng = vec_size (col_index_ (finish_rows vc0 g1 mx))).
  { rewrite Hcols. unfold vec_size. rewrite length_fmap. reflexivity. }
  rewrite Hsz in Hn, Hb.
  split.
  - unfold flatten_target_ids.
    apply (flatten_edges_layout _ _ _ n); try assumption.
    + intros i. unfold target_id_fn. rewrite Hcols. reflexivity.
    + rewrite Hcols. reflexivity.
  - unfold flatten_edge_values.
    apply (flatten_edges_layout _ _ _ n); try assumption.
    + intros i. unfold edge_value_fn. rewrite Hvals. reflexivity.
    + rewrite Hcols, !length_fmap. reflexivity.
Qed.

(** C1: with [EV = void] the rows are filled with the size of the edge
    value base, which is always 0, so every vertex gets the empty range:
    after loading the single edge (0,1), or the two edges (0,1) (1,2), the
    walk over [edges(g, v)] reads back no target at all.  The same single
    edge loaded into a graph that stores edge values is read back. *)
Theorem load_edges_void_loses_edges :
  (exists g',
     load_edges true (csr_graph_new unit unit true) [mk_edge 0 1 tt] 0 0 = Ok g'
     /\ row_index_ g' = [0; 0; 0]
     /\ col_index_ g' = [1]
     /\ edges_fn g' 0 = Some (0%nat, 0%nat)
     /\ flatten_target_ids g' = Some []
     /\ flatten_target_ids g' <> Some (target_id <$> [mk_edge 0 1 tt]))
  /\ (exists g',
        load_edges true (csr_graph_new unit unit true)
                   [mk_edge 0 1 tt; mk_edge 1 2 tt] 0 0 = Ok g'
        /\ row_index_ g' = [0; 0; 0; 0]
        /\ col_index_ g' = [1; 2]
        /\ flatten_target_ids g' = Some [])
  /\ (exists g',
        load_edges true (csr_graph_new unit unit false) [mk_edge 0 1 tt] 0 0 = Ok g'
        /\ row_index_ g' = [0; 1; 1]
        /\ edges_fn g' 0 = Some (0%nat, 1%nat)
        /\ flatten_target_ids g' = Some [1]).
Proof.
  split; [|split]; eexists; (split; [vm_compute; reflexivity|]);
    repeat split; discriminate.
Qed.

(** C3: a successful load into a graph that stores edge values, with
    [vertex_id_type] large enough for the counts, leaves non-decreasing
    row offsets, every column target below [|V|] and as many edge values
    as columns.  When the range is not empty there are [|V| + 1] row
    offsets, the first is 0 and the last is the number of columns; when it
    is empty there is no row offset and no column. *)
Theorem load_edges_invariants :
  forall (EV VV : Type) (HVV : Inhabited VV) (bidirectional_range : bool)
         (g g' : csr_graph_base EV VV) (erng : list (copyable_edge_t EV))
         (vertex_count edge_count : N),
    load_edges bidirectional_range g erng vertex_count edge_count = Ok g' ->
    (exists v_, col_values_ g = col_values v_) ->
    VId_large_enough erng vertex_count = true ->
    Sorted N.le (row_index_ g')
    /\ Forall (fun t => t < num_vertices g') (col_index_ g')
    /\ col_values_size (col_values_ g') = vec_size (col_index_ g')
    /\ (erng <> [] ->
        vec_size (row_index_ g') = num_vertices g' + 1
        /\ row_index_ g' !! 0%nat = Some 0
        /\ row_index_ g' !! N.to_nat (num_vertices g') = Some (vec_size (col_index_ g')))
    /\ (erng = [] -> row_index_ g' = [] /\ col_index_ g' = []).
Proof.
  intros EV VV HVV bidir g g' erng vc ec Hload Hvals Hfit.
  destruct (decide (erng = [])) as [->|Hne].
  - unfold load_edges in Hload. fold (graph_is_empty g) in Hload.
    destruct (graph_is_empty g) eqn:Hempty; [|discriminate].
    injection Hload as <-.
    destruct (loop_invariant_empty g Hempty Hvals) as (_ & Hv0 & Hc0 & Hr0).
    rewrite Hv0, Hc0, Hr0.
    split; [constructor|]. split; [constructor|]. split; [reflexivity|].
    split; [congruence | auto].
  - destruct (load_edges_structure _ _ _ _ _ _ Hload Hvals Hne Hfit) as
      (n & Hlen & Hs & H0 & Hn & Hb & Hcols & Hvals' & Htgt & _).
    assert (Hnv : num_vertices g' = N.of_nat n).
    { unfold num_vertices, vertices_fn, vec_size.
      destruct (row_index_ g'); [discriminate|]. simpl in *.
      rewrite length_seq. lia. }
    rewrite Hnv, Nat2N.id.
    split; [apply StronglySorted_Sorted, Hs|].
    split; [rewrite Hcols; exact Htgt|].
    split; [rewrite Hvals', Hcols; simpl; unfold vec_size;
            rewrite !length_fmap; reflexivity|].
    split; [|congruence]. intros _.
    split; [unfold vec_size; rewrite Hlen; lia|]. split; [exact H0|].
    rewrite Hn, Hcols. unfold vec_size. rewrite length_fmap. reflexivity.
Qed.

Lemma load_edges_invariants_witness :
  Sorted N.le (row_index_ (routes_graph unit))
  /\ Forall (fun t => t < num_vertices (routes_graph unit)) (col_index_ (routes_graph unit))
  /\ row_index_ (routes_graph unit) !! 0%nat = Some 0
  /\ row_index_ (routes_graph unit) !! N.to_nat (num_vertices (routes_graph unit))
     = Some (vec_size (col_index_ (routes_graph unit))).
Proof.
  pose proof (load_edges_invariants N unit _ true (csr_graph_new N unit false)
                (routes_graph unit) routes 0 0
                ltac:(vm_compute; reflexivity)
                (ex_intro _ [] eq_refl)
                ltac:(vm_compute; reflexivity)) as (Hs & Ht & _ & Hne & _).
  destruct (Hne ltac:(discriminate)) as (_ & H0 & Hn).
  split; [exact Hs|]. split; [exact Ht|]. split; [exact H0 | exact Hn].
Defined.

(** The invariants of C3 do not hold after every successful load.  The
    load of an empty range leaves no row at all, so that neither
    [row_offsets[0]] nor [row_offsets[|V|]] exists; and in the load of the
    edge (0, 2^32 - 1) the target plus one wraps to 0 in [vertex_id_type],
    so that [|V|] is 1 and the target is not below it. *)
Lemma load_edges_invariants_counterexample :
  (exists g',
     load_edges true (csr_graph_new N unit false) [] 0 0 = Ok g'
     /\ row_index_ g' !! 0%nat <> Some 0
     /\ row_index_ g' !! N.to_nat (num_vertices g') <> Some (vec_size (col_index_ g')))
  /\ (exists g',
        load_edges true (csr_graph_new N unit false) [mk_edge 0 4294967295 7] 0 0 = Ok g'
        /\ num_vertices g' = 1
        /\ ~ Forall (fun t => t < num_vertices g') (col_index_ g')).
Proof.
  split.
  - eexists. split; [reflexivity|]. split; discriminate.
  - eexists. split; [vm_compute; reflexivity|]. split; [reflexivity|].
    intros H. apply Forall_cons in H as [H _]. vm_compute in H. discriminate.
Qed.

(** * Further properties *)

(** ** Reading a loaded graph back *)

(** X1: a load into a new graph that stores edge values succeeds on every
    range ordered by source and, when [vertex_id_type] is large enough for
    the counts, walking [edges(g, v)] for every vertex in turn reads the
    targets and the values of the range back in input order. *)
Theorem load_edges_reads_back :
  forall (EV VV : Type) (HVV : Inhabited VV) (bidirectional_range : bool)
         (erng : list (copyable_edge_t EV)) (vertex_count edge_count : N),
    Sorted N.le (source_id <$> erng) ->
    VId_large_enough erng vertex_count = true ->
    exists g',
      load_edges bidirectional_range (csr_graph_new EV VV false) erng
                 vertex_count edge_count = Ok g'
      /\ flatten_target_ids g' = Some (target_id <$> erng)
      /\ flatten_edge_values g' = Some (value <$> erng).
Proof.
  intros EV VV HVV bidir erng vc ec. apply load_edges_round_trip.
Qed.

Lemma load_edges_reads_back_witness :
  exists g',
    load_edges true (csr_graph_new N unit false) routes 0 0 = Ok g'
    /\ flatten_target_ids g' = Some (target_id <$> routes)
    /\ flatten_edge_values g' = Some (value <$> routes).
Proof.
  apply (load_edges_reads_back N unit _ true routes 0 0).
  - repeat constructor; simpl; lia.
  - vm_compute. reflexivity.
Defined.

(** ** [max_vertex_id] *)

Section max_vertex_id_facts.
Context {EV : Type}.
Implicit Types (erng : list (copyable_edge_t EV)).

Lemma max_vertex_id_bounds erng : forall max_id edge_count m n,
  fold_left
    (fun '(max_id, edge_count) (uv : copyable_edge_t EV) =>
       (N.max max_id (N.max (to_VId (source_id uv)) (to_VId (target_id uv))),
        edge_count + 1))
    erng (max_id, edge_count) = (m, n) ->
  n = edge_count + vec_size erng
  /\ max_id <= m
  /\ Forall (fun e => to_VId (source_id e) <= m /\ to_VId (target_id e) <= m) erng
  /\ (forall bound, max_id <= bound ->
        Forall (fun e => to_VId (source_id e) <= bound /\ to_VId (target_id e) <= bound) erng ->
        m <= bound).
Proof.
  induction erng as [|e erng IH]; intros max_id edge_count m n; simpl.
  - intros [= <- <-]. unfold vec_size. simpl.
    split; [lia|]. split; [lia|]. split; [constructor | auto].
  - intros H. apply IH in H as (Hn & Hle & Hall & Hleast).
    split; [unfold vec_size in *; simpl; lia|]. split; [lia|]. split.
    + constructor; [lia | exact Hall].
    + intros bound Hb Hbound. apply Forall_cons in Hbound as [[? ?] Hbound].
      apply Hleast; [lia | exact Hbound].
Qed.

End max_vertex_id_facts.

Lemma max_vertex_id_lub {EV : Type} (erng : list (copyable_edge_t EV)) :
  Forall (fun e => source_id e < VId_modulus /\ target_id e < VId_modulus) erng ->
  snd (max_vertex_id erng) = vec_size erng
  /\ Forall (fun e => source_id e <= fst (max_vertex_id erng)
                      /\ target_id e <= fst (max_vertex_id erng)) erng
  /\ (forall bound,
        Forall (fun e => source_id e <= bound /\ target_id e <= bound) erng ->
        fst (max_vertex_id erng) <= bound).
Proof.
  intros Htyped. unfold max_vertex_id.
  destruct (fold_left _ erng (0, 0)) as [m n] eqn:Hfold.
  apply max_vertex_id_bounds in Hfold as (Hn & _ & Hall & Hleast). simpl.
  assert (Hid : forall P : N -> N -> Prop,
            Forall (fun e => P (to_VId (source_id e)) (to_VId (target_id e))) erng <->
            Forall (fun e : copyable_edge_t EV => P (source_id e) (target_id e)) erng).
  { intros P. rewrite !Forall_forall. rewrite Forall_forall in Htyped.
    split; intros H e He; specialize (H e He); destruct (Htyped e He) as [Hs Ht];
      rewrite !to_VId_small in * by assumption; exact H. }
  split; [lia|]. split.
  - apply (Hid (fun s t => s <= m /\ t <= m)), Hall.
  - intros bound Hbound. apply Hleast; [lia|].
    apply (Hid (fun s t => s <= bound /\ t <= bound)), Hbound.
Qed.

(** X4: [max_vertex_id] returns the number of records and the least upper
    bound of their source and target ids: no id is above it, and it is
    below every bound of the ids (so it is 0 on an empty range). *)
Theorem max_vertex_id_least_upper_bound :
  forall (EV : Type) (erng : list (copyable_edge_t EV)),
    Forall (fun e => source_id e < VId_modulus /\ target_id e < VId_modulus) erng ->
    snd (max_vertex_id erng) = vec_size erng
    /\ Forall (fun e => source_id e <= fst (max_vertex_id erng)
                        /\ target_id e <= fst (max_vertex_id erng)) erng
    /\ (forall bound,
          Forall (fun e => source_id e <= bound /\ target_id e <= bound) erng ->
          fst (max_vertex_id erng) <= bound).
Proof. intros EV erng. apply max_vertex_id_lub. Qed.

Lemma max_vertex_id_least_upper_bound_witness :
  snd (max_vertex_id routes) = 9 /\ fst (max_vertex_id routes) <= 9.
Proof.
  pose proof (max_vertex_id_least_upper_bound N routes
                ltac:(repeat constructor)) as (Hn & _ & Hleast).
  split; [exact Hn|]. apply Hleast. repeat constructor; simpl; lia.
Defined.

(** ** Success and extent of [load_edges] *)

Section load_edges_extent.
Context {EV VV : Type} `{!Inhabited VV}.
Implicit Types (g : csr_graph_base EV VV) (erng : list (copyable_edge_t EV)).

(** A loop that ran to its end has only seen non-decreasing sources. *)
Lemma add_edges_ok_sorted erng : forall position g last_uid max_vid g' max_vid',
  add_edges position erng g last_uid max_vid = Ok (g', max_vid') ->
  Sorted N.le (last_uid :: (source_id <$> erng)).
Proof.
  induction erng as [|e erng IH]; intros position g last_uid max_vid g' max_vid'; simpl.
  - intros _. repeat constructor.
  - destruct (N.ltb_spec (source_id e) last_uid) as [|Hge]; [discriminate|].
    intros H. apply IH in H. constructor; [exact H|]. constructor. exact Hge.
Qed.

Lemma load_edges_unfold bidirectional_range g erng vertex_count edge_count g' :
  load_edges bidirectional_range g erng vertex_count edge_count = Ok g' ->
  erng <> [] ->
  graph_is_empty g = true
  /\ exists g1 max_vid,
       add_edges 0 erng g 0 0 = Ok (g1, max_vid)
       /\ g' = finish_rows
                 (N.max vertex_count (to_VId (last_erng_id bidirectional_range erng + 1)))
                 g1 max_vid.
Proof.
  unfold load_edges. fold (graph_is_empty g).
  destruct (graph_is_empty g); [|discriminate]. simpl.
  destruct erng as [|e0 erng0] eqn:Herng; [congruence|]. rewrite <- Herng.
  destruct (add_edges 0 erng g 0 0) as [[g1 mx]|err]; [|discriminate].
  simpl. intros [= <-] _. eauto.
Qed.

(** The columns only grow in the loop. *)
Lemma add_edges_columns erng : forall position g last_uid max_vid g' max_vid',
  add_edges position erng g last_uid max_vid = Ok (g', max_vid') ->
  col_index_ g' = col_index_ g ++ (target_id <$> erng)
  /\ row_values_ g' = row_values_ g.
Proof.
  induction erng as [|e erng IH]; intros position g last_uid max_vid g' max_vid'; simpl.
  - intros [= <- <-]. rewrite app_nil_r. auto.
  - destruct (source_id e <? last_uid); [discriminate|].
    intros H. apply IH in H as [-> ->]. simpl. rewrite <- app_assoc. auto.
Qed.

(** The extent of what the loop built: the rows end with the row of the
    last source, which bounds every source read; the running maximum
    bounds every target; and neither exceeds a bound of the ids. *)
Lemma add_edges_extent erng : forall position g last_uid max_vid g' max_vid',
  add_edges position erng g last_uid max_vid = Ok (g', max_vid') ->
  exists last_uid',
    (erng <> [] -> length (row_index_ g') = N.to_nat (last_uid' + 1))
    /\ Forall (fun e => source_id e <= last_uid' /\ target_id e <= max_vid') erng
    /\ last_uid <= last_uid' /\ max_vid <= max_vid'
    /\ (forall bound, last_uid <= bound ->
          Forall (fun e => source_id e <= bound) erng -> last_uid' <= bound)
    /\ (forall bound, max_vid <= bound ->
          Forall (fun e => target_id e <= bound) erng -> max_vid' <= bound).
Proof.
  induction erng as [|e erng IH]; intros position g last_uid max_vid g' max_vid'; simpl.
  - intros [= <- <-]. exists last_uid.
    split; [congruence|]. split; [constructor|]. split; [lia|]. split; [lia | auto].
  - destruct (N.ltb_spec (source_id e) last_uid) as [|Hge]; [discriminate|].
    intros H. destruct (IH _ _ _ _ _ _ H) as (last' & Hlen & Hall & Hl & Hm & Hls & Hlt).
    exists last'. split; [|split; [|split; [|split; [|split]]]].
    + intros _. destruct erng as [|e' erng'].
      * simpl in H. injection H as <- <-. simpl. rewrite length_resize.
        assert (last' = source_id e); [|subst; reflexivity].
        specialize (Hls (source_id e)). apply N.le_antisymm; [|exact Hl].
        apply Hls; [lia | constructor].
      * apply Hlen. discriminate.
    + constructor; [lia|]. exact Hall.
    + lia.
    + lia.
    + intros bound Hb Hbound. apply Forall_cons in Hbound as [? Hbound].
      apply Hls; [lia | exact Hbound].
    + intros bound Hb Hbound. apply Forall_cons in Hbound as [? Hbound].
      apply Hlt; [lia | exact Hbound].
Qed.

Lemma num_vertices_finish_rows vertex_count g max_vid :
  N.max vertex_count (N.max (vec_size (row_index_ g)) (to_VId (max_vid + 1)))
  < VId_modulus ->
  num_vertices (finish_rows vertex_count g max_vid)
  = N.max vertex_count (N.max (vec_size (row_index_ g)) (to_VId (max_vid + 1))).
Proof.
  intros Hfit. unfold num_vertices, vertices_fn, finish_rows. simpl.
  rewrite to_size_type_small by exact Hfit.
  set (vc := N.max vertex_count _) in *.
  replace (N.to_nat (vc + 1)) with (S (N.to_nat vc)) by lia.
  destruct (resize (S (N.to_nat vc)) _ (row_index_ g)) as [|r rows] eqn:Hres.
  - apply (f_equal length) in Hres. rewrite length_resize in Hres. discriminate.
  - apply (f_equal length) in Hres. rewrite length_resize in Hres. simpl in *.
    unfold vec_size. rewrite length_seq. lia.
Qed.

End load_edges_extent.

Lemma load_edges_ok_iff {EV VV : Type} `{!Inhabited VV} (bidirectional_range : bool)
    (g : csr_graph_base EV VV) (erng : list (copyable_edge_t EV))
    (vertex_count edge_count : N) :
  graph_is_empty g = true ->
  (is_Ok (load_edges bidirectional_range g erng vertex_count edge_count) = true
   <-> Sorted N.le (source_id <$> erng)).
Proof.
  intros Hempty.
  unfold load_edges. fold (graph_is_empty g). rewrite Hempty. simpl.
  destruct erng as [|e0 erng0] eqn:Herng; [split; [constructor | reflexivity]|].
  rewrite <- Herng. split.
  - destruct (add_edges 0 erng g 0 0) as [[g1 mx]|err] eqn:Hloop; [|discriminate].
    intros _. apply add_edges_ok_sorted in Hloop. apply Sorted_inv in Hloop. apply Hloop.
  - intros Hs.
    destruct (add_edges_sorted erng 0%nat g 0 0 (Sorted_from_zero _ Hs))
      as (g1 & mx & ->). reflexivity.
Qed.

(** X2: on an empty graph [load_edges] succeeds exactly when the sources
    of the range are non-decreasing. *)
Theorem load_edges_succeeds_iff_sorted :
  forall (EV VV : Type) (HVV : Inhabited VV) (bidirectional_range : bool)
         (g : csr_graph_base EV VV) (erng : list (copyable_edge_t EV))
         (vertex_count edge_count : N),
    graph_is_empty g = true ->
    (is_Ok (load_edges bidirectional_range g erng vertex_count edge_count) = true
     <-> Sorted N.le (source_id <$> erng)).
Proof. intros EV VV HVV b g erng vc ec. apply load_edges_ok_iff. Qed.

Lemma load_edges_succeeds_iff_sorted_witness :
  is_Ok (load_edges true (csr_graph_new N unit false) routes 0 0) = true.
Proof.
  apply (proj2 (load_edges_succeeds_iff_sorted N unit _ true
                  (csr_graph_new N unit false) routes 0 0 eq_refl)).
  repeat constructor; simpl; lia.
Defined.

(** The vertex count a load settles on. *)
Lemma load_edges_vertex_count {EV VV : Type} `{!Inhabited VV} (bidirectional_range : bool)
    (g g' : csr_graph_base EV VV) (erng : list (copyable_edge_t EV))
    (vertex_count edge_count : N) :
  load_edges bidirectional_range g erng vertex_count edge_count = Ok g' ->
  erng <> [] ->
  VId_large_enough erng vertex_count = true ->
  exists g1 max_vid vertex_count',
    add_edges 0 erng g 0 0 = Ok (g1, max_vid)
    /\ g' = finish_rows
              (N.max vertex_count (to_VId (last_erng_id bidirectional_range erng + 1)))
              g1 max_vid
    /\ vertex_count'
       = N.max (N.max vertex_count (to_VId (last_erng_id bidirectional_range erng + 1)))
               (N.max (vec_size (row_index_ g1)) (to_VId (max_vid + 1)))
    /\ vertex_count' < VId_modulus
    /\ num_vertices g' = vertex_count'
    /\ vertex_count' = N.max vertex_count (fst (max_vertex_id erng) + 1).
Proof.
  intros Hload Hne Hfit.
  apply VId_large_enough_spec in Hfit as (Hsz & Hvc & Hall).
  destruct (load_edges_unfold _ _ _ _ _ _ Hload Hne) as (_ & g1 & mx & Hloop & ->).
  exists g1, mx. eexists. split; [exact Hloop|]. split; [reflexivity|].
  split; [reflexivity|].
  destruct (add_edges_extent _ _ _ _ _ _ _ Hloop)
    as (last' & Hlen & Hbnd & _ & _ & Hls & Hlt).
  specialize (Hlen Hne).
  pose proof (last_erng_id_small bidirectional_range erng Hall) as Hlast.
  destruct (max_vertex_id_lub erng) as (_ & Hub & Hlub).
  { eapply Forall_impl; [exact Hall|]. simpl. intros; lia. }
  set (m := fst (max_vertex_id erng)) in *.
  assert (Hm : m + 1 < VId_modulus).
  { assert (m <= VId_modulus - 2); [|lia]. apply Hlub.
    eapply Forall_impl; [exact Hall|]. simpl. intros; lia. }
  assert (Hlm : last' <= m /\ mx <= m).
  { split; [apply Hls | apply Hlt]; try lia;
      (eapply Forall_impl; [exact Hub|]; simpl; intros; lia). }
  assert (Hml : m <= N.max last' mx).
  { apply Hlub. eapply Forall_impl; [exact Hbnd|]. simpl. intros; lia. }
  assert (Hlid : last_erng_id bidirectional_range erng <= m).
  { unfold last_erng_id. destruct bidirectional_range; [|lia].
    destruct (list.last erng) as [e|] eqn:He; [|lia].
    rewrite Forall_forall in Hub. destruct (Hub e) as [? ?]; [|lia].
    apply last_Some in He as [l' ->]. apply elem_of_app. right. constructor. }
  assert (Hrows : vec_size (row_index_ g1) = last' + 1) by (unfold vec_size; lia).
  rewrite (to_VId_small (last_erng_id bidirectional_range erng + 1)) by exact Hlast.
  rewrite (to_VId_small (mx + 1)) by lia. rewrite Hrows.
  split; [lia|]. split; [|lia].
  rewrite num_vertices_finish_rows; rewrite (to_VId_small (mx + 1)) by lia;
    rewrite Hrows; lia.
Qed.

(** X3: after a successful load of a non-empty range, with
    [vertex_id_type] large enough, the number of vertices is the larger of
    the count passed by the caller and one more than the largest id of the
    range, as [max_vertex_id] computes it; whether the range is
    bidirectional and whether edge values are stored makes no
    difference. *)
Theorem load_edges_num_vertices :
  forall (EV VV : Type) (HVV : Inhabited VV) (bidirectional_range : bool)
         (g g' : csr_graph_base EV VV) (erng : list (copyable_edge_t EV))
         (vertex_count edge_count : N),
    load_edges bidirectional_range g erng vertex_count edge_count = Ok g' ->
    erng <> [] ->
    VId_large_enough erng vertex_count = true ->
    num_vertices g' = N.max vertex_count (fst (max_vertex_id erng) + 1).
Proof.
  intros EV VV HVV bidir g g' erng vc ec Hload Hne Hfit.
  destruct (load_edges_vertex_count _ _ _ _ _ _ Hload Hne Hfit)
    as (g1 & mx & vc' & _ & _ & _ & _ & -> & ->). reflexivity.
Qed.

Lemma load_edges_num_vertices_witness :
  num_vertices (routes_graph unit) = N.max 0 (fst (max_vertex_id routes) + 1).
Proof.
  apply (load_edges_num_vertices N unit _ true (csr_graph_new N unit false)
           (routes_graph unit) routes 0 0).
  - vm_compute. reflexivity.
  - discriminate.
  - vm_compute. reflexivity.
Defined.

(** X19: [load_edges] does not append.  After a successful load of a
    non-empty range every further [load_edges] fails with [NotEmpty],
    whatever range it is given. *)
Theorem load_edges_only_once :
  forall (EV VV : Type) (HVV : Inhabited VV) (bidirectional_range bidirectional_range' : bool)
         (g g' : csr_graph_base EV VV) (erng erng' : list (copyable_edge_t EV))
         (vertex_count edge_count vertex_count' edge_count' : N),
    load_edges bidirectional_range g erng vertex_count edge_count = Ok g' ->
    erng <> [] ->
    load_edges bidirectional_range' g' erng' vertex_count' edge_count' = Err NotEmpty.
Proof.
  intros EV VV HVV b b' g g' erng erng' vc ec vc' ec' Hload Hne.
  destruct (load_edges_unfold _ _ _ _ _ _ Hload Hne) as (_ & g1 & mx & Hloop & ->).
  apply add_edges_columns in Hloop as [Hcols _].
  apply load_edges_not_empty, graph_is_empty_false. right. left.
  simpl. rewrite Hcols. destruct erng; [congruence|].
  intros H. apply app_eq_nil in H as [_ H]. discriminate.
Qed.

Lemma load_edges_only_once_witness :
  load_edges true (routes_graph unit) [mk_edge 9 9 1] 0 0 = Err NotEmpty.
Proof.
  apply (load_edges_only_once N unit _ true true (csr_graph_new N unit false)
           (routes_graph unit) routes [mk_edge 9 9 1] 0 0 0 0).
  - vm_compute. reflexivity.
  - discriminate.
Defined.

(** ** The edges of each vertex *)

Section adjacency.
Context {EV VV : Type} `{!Inhabited VV}.
Implicit Types (g : csr_graph_base EV VV) (erng read : list (copyable_edge_t EV)).

Lemma sources_below_app (i : N) read erng :
  sources_below i (read ++ erng) = (sources_below i read + sources_below i erng)%nat.
Proof. unfold sources_below. rewrite filter_app, length_app. reflexivity. Qed.

Lemma sources_below_all (i : N) read :
  Forall (fun e => source_id e < i) read -> sources_below i read = length read.
Proof.
  unfold sources_below. induction 1 as [|e read He _ IH]; [reflexivity|].
  rewrite filter_cons_True by exact He. simpl. rewrite IH. reflexivity.
Qed.

Lemma sources_below_none (i : N) read :
  Forall (fun e => i <= source_id e) read -> sources_below i read = 0%nat.
Proof.
  unfold sources_below. induction 1 as [|e read He _ IH]; [reflexivity|].
  rewrite filter_cons_False by lia. exact IH.
Qed.

Lemma edges_from_none (v : N) read :
  Forall (fun e => v < source_id e) read -> edges_from v read = [].
Proof.
  unfold edges_from. induction 1 as [|e read He _ IH]; [reflexivity|].
  rewrite filter_cons_False by lia. exact IH.
Qed.

(** In a range ordered by source, the records that leave [v] are the slice
    between the records below [v] and the records below [v + 1]. *)
Lemma edges_from_slice (v : N) erng :
  StronglySorted N.le (source_id <$> erng) ->
  take (sources_below (v + 1) erng - sources_below v erng)
       (drop (sources_below v erng) erng)
  = edges_from v erng.
Proof.
  induction erng as [|e erng IH]; intros Hs; [reflexivity|].
  simpl in Hs. apply StronglySorted_inv in Hs as [Hs Hall].
  apply (proj1 (Forall_fmap _ _ _)) in Hall. simpl in Hall.
  specialize (IH Hs).
  assert (Hcons : forall i, sources_below i (e :: erng)
            = ((if decide (source_id e < i)%N then 1 else 0) + sources_below i erng)%nat).
  { intros i. unfold sources_below. destruct (decide (source_id e < i)).
    - rewrite filter_cons_True by assumption. reflexivity.
    - rewrite filter_cons_False by assumption. reflexivity. }
  rewrite !Hcons. unfold edges_from.
  destruct (N.lt_total (source_id e) v) as [Hlt | [Heq | Hgt]].
  - rewrite !decide_True by lia. rewrite filter_cons_False by lia. simpl. exact IH.
  - assert (H0 : sources_below v erng = 0%nat).
    { apply sources_below_none. eapply Forall_impl; [exact Hall|]. simpl. intros; lia. }
    rewrite (decide_False (P := source_id e < v)) by lia.
    rewrite (decide_True (P := source_id e < v + 1)) by lia.
    rewrite filter_cons_True by exact Heq. rewrite H0 in *. simpl.
    f_equal. rewrite Nat.sub_0_r in IH. exact IH.
  - assert (Hge : Forall (fun x : copyable_edge_t EV => v + 1 <= source_id x) erng).
    { eapply Forall_impl; [exact Hall|]. simpl. intros; lia. }
    rewrite !decide_False by lia.
    rewrite (sources_below_none (v + 1)) by exact Hge.
    rewrite filter_cons_False by lia. simpl. rewrite take_0.
    symmetry. apply edges_from_none.
    eapply Forall_impl; [exact Hge|]. simpl. intros; lia.
Qed.

(** One iteration keeps the rows counting the sources read. *)
Lemma add_edge_rows_count g e read last_uid max_vid :
  loop_invariant g max_vid ->
  col_index_ g = (target_id <$> read) ->
  rows_count_sources g read last_uid ->
  last_uid <= source_id e ->
  vec_size (col_index_ g) + 1 < VId_modulus ->
  rows_count_sources (add_edge g e) (read ++ [e]) (source_id e).
Proof.
  intros ((v_ & Hv & Hlen) & _) Hcols (Hrows & Hsrc & Hend) Hle Hfit.
  assert (Hfill : to_VId (col_values_size (col_values_ g)) = N.of_nat (length read)).
  { rewrite Hv. simpl. unfold vec_size in *. rewrite Hlen.
    rewrite to_VId_small by lia. rewrite Hcols, length_fmap. reflexivity. }
  unfold rows_count_sources, add_edge. simpl. rewrite Hfill, length_resize.
  split; [|split].
  - intros i Hi. rewrite sources_below_app.
    assert (He : sources_below (N.of_nat i) [e] = 0%nat).
    { apply sources_below_none. constructor; [lia | constructor]. }
    rewrite He, Nat.add_0_r.
    destruct (decide (i < length (row_index_ g))%nat) as [Hin|Hout].
    + rewrite lookup_resize by lia. apply Hrows, Hin.
    + rewrite lookup_resize_new by lia. f_equal. f_equal. symmetry.
      apply sources_below_all. destruct Hend as [[-> _] | Hend]; [constructor|].
      eapply Forall_impl; [exact Hsrc|]. simpl. intros; lia.
  - apply Forall_app. split.
    + eapply Forall_impl; [exact Hsrc|]. simpl. intros; lia.
    + constructor; [lia | constructor].
  - right. reflexivity.
Qed.

Lemma add_edges_rows_count erng : forall position g last_uid max_vid read g' max_vid',
  add_edges position erng g last_uid max_vid = Ok (g', max_vid') ->
  loop_invariant g max_vid ->
  col_index_ g = (target_id <$> read) ->
  rows_count_sources g read last_uid ->
  vec_size (col_index_ g) + vec_size erng < VId_modulus ->
  Forall (fun e => source_id e + 1 < VId_modulus /\ target_id e + 1 < VId_modulus) erng ->
  exists last_uid', rows_count_sources g' (read ++ erng) last_uid'.
Proof.
  induction erng as [|e erng IH];
    intros position g last_uid max_vid read g' max_vid'; simpl.
  - intros [= <- <-] _ _ Hcount _ _. rewrite app_nil_r. eauto.
  - destruct (N.ltb_spec (source_id e) last_uid) as [|Hge]; [discriminate|].
    intros Hloop Hinv Hcols Hcount Hsz Hall.
    apply Forall_cons in Hall as [[Hsrc Htgt] Hall].
    assert (Hsz' : vec_size (e :: erng) = vec_size erng + 1)
      by (unfold vec_size; simpl; lia).
    replace (read ++ e :: erng) with ((read ++ [e]) ++ erng)
      by (rewrite <- app_assoc; reflexivity).
    eapply IH; [exact Hloop| | | | |exact Hall].
    + apply add_edge_invariant; try assumption. lia.
    + simpl. rewrite Hcols, fmap_app. reflexivity.
    + apply add_edge_rows_count with (max_vid := max_vid) (last_uid := last_uid);
        try assumption. lia.
    + simpl. unfold vec_size in *. rewrite length_app. simpl. lia.
Qed.

(** After a load into a graph that stores edge values, row [i] is the
    number of records of the range that leave a vertex below [i]. *)
Lemma load_edges_rows bidirectional_range g erng vertex_count edge_count g' :
  load_edges bidirectional_range g erng vertex_count edge_count = Ok g' ->
  (exists v_, col_values_ g = col_values v_) ->
  erng <> [] ->
  VId_large_enough erng vertex_count = true ->
  forall i, (i < length (row_index_ g'))%nat ->
    row_index_ g' !! i = Some (N.of_nat (sources_below (N.of_nat i) erng)).
Proof.
  intros Hload Hvals Hne Hfit i Hi.
  apply VId_large_enough_spec in Hfit as (Hsz & Hvc & Hall).
  destruct (load_edges_unfold _ _ _ _ _ _ Hload Hne) as (Hempty & g1 & mx & Hloop & ->).
  destruct (loop_invariant_empty g Hempty Hvals) as (Hinv & Hv0 & Hc0 & Hr0).
  pose proof Hloop as Hloop2.
  apply add_edges_invariant in Hloop as (_ & Hcols & Hvals1 & _ & _);
    [|exact Hinv| rewrite Hc0; unfold vec_size in *; simpl; lia |exact Hall].
  specialize (Hvals1 [] Hv0). simpl in Hvals1.
  apply (add_edges_rows_count _ _ _ _ _ []) in Hloop2 as (last' & Hrows & Hsrc & Hend);
    [|exact Hinv| rewrite Hc0; reflexivity
     | split; [rewrite Hr0; simpl; intros; lia | split; [constructor | left; auto]]
     | rewrite Hc0; unfold vec_size in *; simpl; lia | exact Hall].
  simpl in *.
  assert (Hfill : to_VId (col_values_size (col_values_ g1)) = N.of_nat (length erng)).
  { rewrite Hvals1. simpl. unfold vec_size. rewrite length_fmap.
    apply to_VId_small. exact Hsz. }
  rewrite Hfill in *. rewrite length_resize in Hi.
  destruct (decide (i < length (row_index_ g1))%nat) as [Hin|Hout].
  - rewrite lookup_resize by lia. apply Hrows, Hin.
  - rewrite lookup_resize_new by lia. f_equal. f_equal. symmetry.
    apply sources_below_all. destruct Hend as [[-> _] | Hend]; [constructor|].
    eapply Forall_impl; [exact Hsrc|]. simpl. intros; lia.
Qed.

End adjacency.

Section queries.
Context {EV VV : Type} `{!Inhabited VV}.
Implicit Types (g : csr_graph_base EV VV) (erng : list (copyable_edge_t EV)).

Lemma num_vertices_length g (n : nat) :
  length (row_index_ g) = S n -> num_vertices g = N.of_nat n.
Proof.
  intros Hlen. unfold num_vertices, vertices_fn, vec_size.
  destruct (row_index_ g); [discriminate|]. simpl in *. rewrite length_seq. lia.
Qed.

Lemma sources_below_le (i : N) erng : (sources_below i erng <= length erng)%nat.
Proof. unfold sources_below. apply length_filter. Qed.

Lemma sources_below_mono (i j : N) erng :
  i <= j -> (sources_below i erng <= sources_below j erng)%nat.
Proof.
  intros Hij. unfold sources_below. induction erng as [|e erng IH]; [reflexivity|].
  destruct (decide (source_id e < i)) as [Hi|Hi].
  - rewrite !filter_cons_True by lia. simpl. lia.
  - rewrite (filter_cons_False (fun e => source_id e < i)) by exact Hi.
    destruct (decide (source_id e < j)) as [Hj|Hj].
    + rewrite filter_cons_True by exact Hj. simpl. lia.
    + rewrite filter_cons_False by exact Hj. exact IH.
Qed.

(** Reading the edges of a subrange out of a vector parallel to the
    columns. *)
Lemma out_edges_slice {A} (read : csr_graph_base EV VV -> nat -> option A) g
    (items : list A) (uid : N) (first last : nat) :
  edges_fn g uid = Some (first, last) ->
  (forall i, read g i = items !! i) ->
  (first <= length items)%nat -> (last <= length items)%nat ->
  out_edges read g uid = Some (take (last - first) (drop first items)).
Proof.
  intros Hedges Hread Hf Hl. unfold out_edges. rewrite Hedges.
  unfold range_elements. simpl.
  rewrite (mapM_ext _ (fun i => items !! i)) by exact Hread.
  apply mapM_lookup_seq. lia.
Qed.

(** The subrange [edges(g, uid)] of a loaded graph. *)
Lemma load_edges_edges_fn bidirectional_range g erng vertex_count edge_count g' (uid : N) :
  load_edges bidirectional_range g erng vertex_count edge_count = Ok g' ->
  (exists v_, col_values_ g = col_values v_) ->
  VId_large_enough erng vertex_count = true ->
  uid < num_vertices g' ->
  edges_fn g' uid = Some (sources_below uid erng, sources_below (uid + 1) erng).
Proof.
  intros Hload Hvals Hfit Huid.
  destruct (decide (erng = [])) as [->|Hne].
  { unfold load_edges in Hload. fold (graph_is_empty g) in Hload.
    destruct (graph_is_empty g) eqn:Hempty; [|discriminate]. injection Hload as <-.
    destruct (loop_invariant_empty g Hempty Hvals) as (_ & _ & _ & Hr0).
    unfold num_vertices, vertices_fn in Huid. rewrite Hr0 in Huid.
    unfold vec_size in Huid. simpl in Huid. lia. }
  pose proof (load_edges_rows _ _ _ _ _ _ Hload Hvals Hne Hfit) as Hrows.
  destruct (load_edges_structure _ _ _ _ _ _ Hload Hvals Hne Hfit) as
    (n & Hlen & _ & _ & _ & _ & Hcols & _ & _ & Hn).
  rewrite (num_vertices_length _ _ Hlen) in Huid.
  unfold edges_fn. rewrite (to_VId_small (uid + 1)) by lia.
  destruct (N.ltb_spec (uid + 1) (vec_size (row_index_ g'))) as [_|Hge];
    [|unfold vec_size in Hge; lia].
  simpl. rewrite !Hrows by lia. rewrite !N2Nat.id.
  pose proof (sources_below_le (uid + 1) erng) as Hle.
  destruct (N.leb_spec (N.of_nat (sources_below (uid + 1) erng))
                       (vec_size (col_index_ g'))) as [_|Hgt].
  - simpl. rewrite !Nat2N.id. reflexivity.
  - rewrite Hcols in Hgt. unfold vec_size in Hgt. rewrite length_fmap in Hgt. lia.
Qed.

End queries.

(** X5: after a successful load into a graph that stores edge values, with
    [vertex_id_type] large enough, the edges of every vertex [uid] are
    exactly the records of the range with source [uid], in the order of the
    range: their targets through [target_id] and their values through
    [edge_value]. *)
Theorem load_edges_adjacency :
  forall (EV VV : Type) (HVV : Inhabited VV) (bidirectional_range : bool)
         (g g' : csr_graph_base EV VV) (erng : list (copyable_edge_t EV))
         (vertex_count edge_count uid : N),
    load_edges bidirectional_range g erng vertex_count edge_count = Ok g' ->
    (exists v_, col_values_ g = col_values v_) ->
    VId_large_enough erng vertex_count = true ->
    uid < num_vertices g' ->
    out_edges target_id_fn g' uid = Some (target_id <$> edges_from uid erng)
    /\ out_edges edge_value_fn g' uid = Some (value <$> edges_from uid erng).
Proof.
  intros EV VV HVV bidir g g' erng vc ec uid Hload Hvals Hfit Huid.
  pose proof (load_edges_edges_fn _ _ _ _ _ _ _ Hload Hvals Hfit Huid) as Hedges.
  assert (Hne : erng <> []).
  { intros ->. unfold load_edges in Hload. fold (graph_is_empty g) in Hload.
    destruct (graph_is_empty g) eqn:Hempty; [|discriminate]. injection Hload as <-.
    destruct (loop_invariant_empty g Hempty Hvals) as (_ & _ & _ & Hr0).
    unfold num_vertices, vertices_fn in Huid. rewrite Hr0 in Huid.
    unfold vec_size in Huid. simpl in Huid. lia. }
  destruct (load_edges_structure _ _ _ _ _ _ Hload Hvals Hne Hfit) as
    (n & _ & _ & _ & _ & _ & Hcols & Hvals' & _ & _).
  destruct (load_edges_unfold _ _ _ _ _ _ Hload Hne) as (_ & g1 & mx & Hloop & _).
  apply add_edges_ok_sorted in Hloop. apply Sorted_inv in Hloop as [Hsorted _].
  apply Sorted_StronglySorted in Hsorted; [|intros x y z; apply N.le_trans].
  pose proof (sources_below_le uid erng) as Hle1.
  pose proof (sources_below_le (uid + 1) erng) as Hle2.
  split.
  - rewrite (out_edges_slice target_id_fn g' (target_id <$> erng) uid _ _ Hedges).
    + rewrite <- fmap_drop, <- fmap_take, edges_from_slice by exact Hsorted. reflexivity.
    + intros i. unfold target_id_fn. rewrite Hcols. reflexivity.
    + rewrite length_fmap. exact Hle1.
    + rewrite length_fmap. exact Hle2.
  - rewrite (out_edges_slice edge_value_fn g' (value <$> erng) uid _ _ Hedges).
    + rewrite <- fmap_drop, <- fmap_take, edges_from_slice by exact Hsorted. reflexivity.
    + intros i. unfold edge_value_fn. rewrite Hvals'. reflexivity.
    + rewrite length_fmap. exact Hle1.
    + rewrite length_fmap. exact Hle2.
Qed.

Lemma load_edges_adjacency_witness :
  out_edges target_id_fn (routes_graph unit) 4 = Some [5; 7]
  /\ out_edges edge_value_fn (routes_graph unit) 4 = Some [103; 186].
Proof.
  apply (load_edges_adjacency N unit _ true (csr_graph_new N unit false)
           (routes_graph unit) routes 0 0 4).
  - vm_compute. reflexivity.
  - exists []. reflexivity.
  - vm_compute. reflexivity.
  - reflexivity.
Defined.

(** X6: after a successful load of a non-empty range into a graph that
    stores edge values, with [vertex_id_type] large enough, [edges(g, uid)]
    is a subrange of the columns, first offset at most last offset at most
    [|E|], for every [uid] below [|V|]; for every [uid] from [|V|] on its
    bounds assertion fails. *)
Theorem edges_fn_in_range :
  forall (EV VV : Type) (HVV : Inhabited VV) (bidirectional_range : bool)
         (g g' : csr_graph_base EV VV) (erng : list (copyable_edge_t EV))
         (vertex_count edge_count uid : N),
    load_edges bidirectional_range g erng vertex_count edge_count = Ok g' ->
    (exists v_, col_values_ g = col_values v_) ->
    erng <> [] ->
    VId_large_enough erng vertex_count = true ->
    (uid < num_vertices g' ->
     exists first last,
       edges_fn g' uid = Some (first, last)
       /\ (first <= last <= length (col_index_ g'))%nat)
    /\ (num_vertices g' <= uid -> uid + 1 < VId_modulus -> edges_fn g' uid = None).
Proof.
  intros EV VV HVV bidir g g' erng vc ec uid Hload Hvals Hne Hfit.
  destruct (load_edges_structure _ _ _ _ _ _ Hload Hvals Hne Hfit) as
    (n & Hlen & _ & _ & _ & _ & Hcols & _ & _ & _).
  rewrite (num_vertices_length _ _ Hlen). split.
  - intros Huid. rewrite <- (num_vertices_length _ _ Hlen) in Huid.
    rewrite (load_edges_edges_fn _ _ _ _ _ _ _ Hload Hvals Hfit Huid).
    eexists _, _. split; [reflexivity|]. split.
    + apply sources_below_mono. lia.
    + rewrite Hcols, length_fmap. apply sources_below_le.
  - intros Huid Hsmall. unfold edges_fn. rewrite (to_VId_small (uid + 1)) by exact Hsmall.
    destruct (N.ltb_spec (uid + 1) (vec_size (row_index_ g'))) as [Hlt|_];
      [unfold vec_size in Hlt; lia | reflexivity].
Qed.

Lemma edges_fn_in_range_witness :
  (exists first last, edges_fn (routes_graph unit) 4 = Some (first, last)
                      /\ (first <= last <= 9)%nat)
  /\ edges_fn (routes_graph unit) 10 = None.
Proof.
  destruct (edges_fn_in_range N unit _ true (csr_graph_new N unit false)
              (routes_graph unit) routes 0 0 4
              ltac:(vm_compute; reflexivity) (ex_intro _ [] eq_refl)
              ltac:(discriminate) ltac:(vm_compute; reflexivity)) as [Hin _].
  destruct (edges_fn_in_range N unit _ true (csr_graph_new N unit false)
              (routes_graph unit) routes 0 0 10
              ltac:(vm_compute; reflexivity) (ex_intro _ [] eq_refl)
              ltac:(discriminate) ltac:(vm_compute; reflexivity)) as [_ Hout].
  split; [apply Hin; reflexivity|].
  apply Hout; [vm_compute; discriminate | reflexivity].
Defined.

(** X7: [edges(g, u)] by vertex reference and [edges(g, vertex_id(g, u))]
    by id are the same subrange for every vertex [u] of [vertices(g)]
    whose first offset lies within the columns, as long as the vertex ids
    fit [vertex_id_type]. *)
Theorem edges_by_reference_and_by_id :
  forall (EV VV : Type) (g : csr_graph_base EV VV) (u : nat),
    In u (vertices_fn g) ->
    N.of_nat (S u) < VId_modulus ->
    (forall first, row_index_ g !! u = Some first -> first <= vec_size (col_index_ g)) ->
    edges_ref_fn g u = edges_fn g (vertex_id_fn g u).
Proof.
  intros EV VV g u Hu Hfit Hfirst.
  assert (Hlen : (S u < length (row_index_ g))%nat).
  { unfold vertices_fn in Hu. destruct (row_index_ g) as [|r rows]; [destruct Hu|].
    simpl in Hu. apply in_seq in Hu. simpl. lia. }
  unfold edges_ref_fn, edges_fn, vertex_id_fn.
  rewrite (to_VId_small (N.of_nat u)) by lia.
  rewrite (to_VId_small (N.of_nat u + 1)) by lia.
  replace (N.to_nat (N.of_nat u + 1)) with (S u) by lia. rewrite Nat2N.id.
  destruct (N.ltb_spec 1 (vec_size (row_index_ g))) as [_|H1];
    [|unfold vec_size in H1; lia].
  destruct (N.ltb_spec (N.of_nat u + 1) (vec_size (row_index_ g))) as [_|H2];
    [|unfold vec_size in H2; lia].
  simpl.
  destruct (lookup_lt_is_Some_2 (row_index_ g) u) as [first Hf]; [lia|].
  destruct (lookup_lt_is_Some_2 (row_index_ g) (S u)) as [last Hl]; [lia|].
  rewrite Hf, Hl. specialize (Hfirst first Hf).
  destruct (N.leb_spec first (vec_size (col_index_ g))) as [_|]; [|lia].
  reflexivity.
Qed.

Lemma edges_by_reference_and_by_id_witness :
  edges_ref_fn (routes_graph unit) 4 = edges_fn (routes_graph unit) 4.
Proof.
  apply (edges_by_reference_and_by_id N unit (routes_graph unit) 4).
  - vm_compute. tauto.
  - reflexivity.
  - intros first [= <-]. vm_compute. discriminate.
Defined.

(** X8: on a graph loaded with edge values and ids that fit, [target(g, uv)]
    of every edge is a vertex of [vertices(g)], never the terminating row,
    and its id is [target_id(g, uv)]. *)
Theorem target_is_a_vertex :
  forall (EV VV : Type) (HVV : Inhabited VV) (bidirectional_range : bool)
         (g g' : csr_graph_base EV VV) (erng : list (copyable_edge_t EV))
         (vertex_count edge_count : N) (uv : nat),
    load_edges bidirectional_range g erng vertex_count edge_count = Ok g' ->
    (exists v_, col_values_ g = col_values v_) ->
    VId_large_enough erng vertex_count = true ->
    (uv < length (col_index_ g'))%nat ->
    exists u,
      target_fn g' uv = Some u
      /\ In u (vertices_fn g')
      /\ target_id_fn g' uv = Some (vertex_id_fn g' u).
Proof.
  intros EV VV HVV bidir g g' erng vc ec uv Hload Hvals Hfit Huv.
  assert (Hne : erng <> []).
  { intros ->. unfold load_edges in Hload. fold (graph_is_empty g) in Hload.
    destruct (graph_is_empty g) eqn:Hempty; [|discriminate]. injection Hload as <-.
    destruct (loop_invariant_empty g Hempty Hvals) as (_ & _ & Hc0 & _).
    rewrite Hc0 in Huv. simpl in Huv. lia. }
  destruct (load_edges_structure _ _ _ _ _ _ Hload Hvals Hne Hfit) as
    (n & Hlen & _ & _ & _ & _ & Hcols & _ & Htgt & Hn).
  destruct (lookup_lt_is_Some_2 (col_index_ g') uv Huv) as [t Ht].
  assert (Htn : t < N.of_nat n).
  { rewrite <- Hcols, Forall_forall in Htgt. eapply Htgt, list_elem_of_lookup_2, Ht. }
  exists (N.to_nat t). unfold target_fn, target_id_fn, vertex_id_fn. rewrite Ht.
  destruct (N.ltb_spec t (vec_size (row_index_ g'))) as [_|Hge];
    [|unfold vec_size in Hge; lia].
  split; [reflexivity|]. split.
  - unfold vertices_fn. destruct (row_index_ g'); [discriminate|]. simpl in *.
    apply in_seq. lia.
  - rewrite N2Nat.id, to_VId_small by lia. reflexivity.
Qed.

Lemma target_is_a_vertex_witness :
  exists u, target_fn (routes_graph unit) 5 = Some u /\ In u (vertices_fn (routes_graph unit)).
Proof.
  destruct (target_is_a_vertex N unit _ true (csr_graph_new N unit false)
              (routes_graph unit) routes 0 0 5
              ltac:(vm_compute; reflexivity) (ex_intro _ [] eq_refl)
              ltac:(vm_compute; reflexivity) ltac:(vm_compute; lia))
    as (u & Ht & Hin & _).
  exists u. split; assumption.
Defined.

(** ** Vertex handles and ids *)

(** X9: [find_vertex] and [vertex_id] are inverse to each other on ids and
    handles that fit [vertex_id_type]; an id below [|V|] is found among
    [vertices(g)], and a vertex of [vertices(g)] has an id below [|V|]. *)
Theorem find_vertex_vertex_id :
  forall (EV VV : Type) (g : csr_graph_base EV VV),
    (forall id : N,
       id < VId_modulus ->
       vertex_id_fn g (find_vertex g id) = id
       /\ (id < num_vertices g -> In (find_vertex g id) (vertices_fn g)))
    /\ (forall u : nat,
          In u (vertices_fn g) ->
          N.of_nat u < VId_modulus ->
          find_vertex g (vertex_id_fn g u) = u /\ vertex_id_fn g u < num_vertices g).
Proof.
  intros EV VV g.
  assert (Hv : vertices_fn g = seq 0 (length (row_index_ g) - 1)).
  { unfold vertices_fn. destruct (row_index_ g); reflexivity. }
  unfold num_vertices, vertex_id_fn, find_vertex, vec_size. rewrite Hv, length_seq.
  split.
  - intros id Hid. rewrite N2Nat.id. split; [apply to_VId_small, Hid|].
    intros Hlt. apply in_seq. lia.
  - intros u Hu Hfit. apply in_seq in Hu. rewrite to_VId_small by exact Hfit.
    split; lia.
Qed.

Lemma find_vertex_vertex_id_witness :
  vertex_id_fn (routes_graph unit) (find_vertex (routes_graph unit) 7) = 7
  /\ find_vertex (routes_graph unit) (vertex_id_fn (routes_graph unit) 7) = 7%nat.
Proof.
  destruct (find_vertex_vertex_id N unit (routes_graph unit)) as [Hid Hu].
  split.
  - apply Hid. reflexivity.
  - apply Hu; [vm_compute; tauto | reflexivity].
Defined.

(** ** More on [load_vertices] *)

Section load_vertices_more.
Context {EV VV : Type} `{!Inhabited VV}.
Implicit Types (g : csr_graph_base EV VV) (vrng : list (copyable_vertex_t VV)).

Lemma is_Ok_bind {A B} (m : result A) (k : A -> result B) :
  is_Ok (bind m k) = match m with Ok a => is_Ok (k a) | Err _ => false end.
Proof. destruct m; reflexivity. Qed.

Lemma load_vertices_ok g vrng vertex_count :
  is_Ok (load_vertices g vrng vertex_count)
  = forallb (fun p => fst p <? vec_size vrng) vrng.
Proof.
  unfold load_vertices, load_row_values. rewrite is_Ok_bind.
  pose proof (assign_row_values_ok vrng (resize (length vrng) inhabitant (row_values_ g)))
    as Hok.
  unfold vec_size in Hok at 1. rewrite length_resize in Hok. fold (vec_size vrng) in Hok.
  rewrite <- Hok. destruct (assign_row_values _ _); reflexivity.
Qed.

Lemma assign_row_values_first_bad before : forall vals rest (id : N) (val : VV),
  Forall (fun p => fst p < vec_size vals) before ->
  vec_size vals <= id ->
  assign_row_values (before ++ (id, val) :: rest) vals = Err (IdOutOfRange id).
Proof.
  induction before as [|[i x] before IH]; intros vals rest id val Hall Hid; simpl.
  - destruct (N.ltb_spec id (vec_size vals)); [lia | reflexivity].
  - apply Forall_cons in Hall as [Hi Hall]. simpl in Hi.
    destruct (N.ltb_spec i (vec_size vals)); [|lia].
    apply IH; unfold vec_size in *; rewrite length_insert; assumption.
Qed.



End load_vertices_more.

(** X10: [load_vertices] succeeds exactly when every id of the range is
    below the number of pairs of the range, whatever the graph holds and
    whatever count is passed; the first id that is not makes it fail with
    [IdOutOfRange] for that id. *)
Theorem load_vertices_succeeds_iff :
  forall (EV VV : Type) (HVV : Inhabited VV) (g : csr_graph_base EV VV)
         (vrng : list (copyable_vertex_t VV)) (vertex_count : N),
    (is_Ok (load_vertices g vrng vertex_count) = true
     <-> Forall (fun p => fst p < vec_size vrng) vrng)
    /\ (forall before id val after,
          vrng = before ++ (id, val) :: after ->
          Forall (fun p => fst p < vec_size vrng) before ->
          vec_size vrng <= id ->
          load_vertices g vrng vertex_count = Err (IdOutOfRange id)).
Proof.
  intros EV VV HVV g vrng vc. split.
  - rewrite load_vertices_ok. rewrite forallb_forall, Forall_forall. split.
    + intros H p Hp. apply N.ltb_lt, H, list_elem_of_In, Hp.
    + intros H p Hp. apply N.ltb_lt, H, list_elem_of_In, Hp.
  - intros before id val after Hv Hbefore Hid.
    unfold load_vertices, load_row_values.
    assert (Hsz : vec_size (resize (length vrng) inhabitant (row_values_ g)) = vec_size vrng)
      by (unfold vec_size; rewrite length_resize; reflexivity).
    subst vrng. rewrite assign_row_values_first_bad; [reflexivity| |].
    + rewrite Hsz. exact Hbefore.
    + rewrite Hsz. exact Hid.
Qed.

Lemma load_vertices_succeeds_iff_witness :
  is_Ok (load_vertices (routes_graph N) [(1, 5); (0, 6)] 0) = true
  /\ load_vertices (routes_graph N) [(0, 5); (5, 6)] 10 = Err (IdOutOfRange 5).
Proof.
  split.
  - apply (proj1 (load_vertices_succeeds_iff N N _ (routes_graph N) [(1, 5); (0, 6)] 0)).
    repeat constructor.
  - apply (proj2 (load_vertices_succeeds_iff N N _ (routes_graph N) [(0, 5); (5, 6)] 10)
             [(0, 5)] 5 6 []).
    + reflexivity.
    + repeat constructor.
    + vm_compute. discriminate.
Defined.

(** X11: a successful [load_vertices] leaves exactly one vertex value per
    pair of the range, however many the graph held before, and changes
    neither the rows, nor the columns, nor the edge values. *)
Theorem load_vertices_frame :
  forall (EV VV : Type) (HVV : Inhabited VV) (g g' : csr_graph_base EV VV)
         (vrng : list (copyable_vertex_t VV)) (vertex_count : N),
    load_vertices g vrng vertex_count = Ok g' ->
    length (row_values_ g') = length vrng
    /\ row_index_ g' = row_index_ g
    /\ col_index_ g' = col_index_ g
    /\ col_values_ g' = col_values_ g.
Proof.
  intros EV VV HVV g g' vrng vc. unfold load_vertices.
  destruct (load_row_values _ _ _) as [r|e] eqn:Hr; simpl; [|discriminate].
  intros [= <-]. simpl. apply load_row_values_length in Hr. auto.
Qed.

Lemma load_vertices_frame_witness :
  exists g', load_vertices (mk_graph [1; 2; 3; 4] (col_values [7]) [0; 1; 1] [1])
                           [(1, 5); (0, 6)] 0 = Ok g'
             /\ length (row_values_ g') = 2%nat
             /\ row_index_ g' = [0; 1; 1].
Proof.
  eexists. split; [reflexivity|].
  destruct (load_vertices_frame N N _ (mk_graph [1; 2; 3; 4] (col_values [7]) [0; 1; 1] [1])
              _ [(1, 5); (0, 6)] 0 eq_refl) as (Hlen & Hrows & _).
  split; [exact Hlen | exact Hrows].
Defined.

(** X12: after a successful [load_vertices], an entry no pair of the range
    refers to holds what the vector held there before, or the default
    value when the vector was shorter. *)
Theorem load_vertices_untouched :
  forall (EV VV : Type) (HVV : Inhabited VV) (g g' : csr_graph_base EV VV)
         (vrng : list (copyable_vertex_t VV)) (vertex_count : N) (i : nat),
    load_vertices g vrng vertex_count = Ok g' ->
    (i < length vrng)%nat ->
    Forall (fun p => fst p <> N.of_nat i) vrng ->
    ((i < length (row_values_ g))%nat -> row_values_ g' !! i = row_values_ g !! i)
    /\ ((length (row_values_ g) <= i)%nat -> row_values_ g' !! i = Some inhabitant).
Proof.
  intros EV VV HVV g g' vrng vc i Hload Hi Hnot.
  unfold load_vertices, load_row_values in Hload.
  destruct (assign_row_values _ _) as [r|e] eqn:Hr; simpl in Hload; [|discriminate].
  injection Hload as <-. simpl.
  pose proof (assign_row_values_other _ _ _ _ Hr Hnot) as H. rewrite Nat2N.id in H.
  rewrite H. split; intros Hlen.
  - apply lookup_resize; assumption.
  - apply lookup_resize_new; assumption.
Qed.

Lemma load_vertices_untouched_witness :
  exists g', load_vertices (mk_graph [1; 2] (col_values [7]) [0; 1; 1] [1])
                           [(0, 5); (0, 6); (3, 8); (3, 9)] 0 = Ok g'
             /\ row_values_ g' !! 1%nat = Some 2
             /\ row_values_ g' !! 2%nat = Some inhabitant.
Proof.
  eexists. split; [reflexivity|].
  split.
  - apply (proj1 (load_vertices_untouched N N _
                    (mk_graph [1; 2] (col_values [7]) [0; 1; 1] [1]) _
                    [(0, 5); (0, 6); (3, 8); (3, 9)] 0 1 eq_refl
                    ltac:(simpl; lia) ltac:(repeat constructor; discriminate))).
    simpl. lia.
  - apply (proj2 (load_vertices_untouched N N _
                    (mk_graph [1; 2] (col_values [7]) [0; 1; 1] [1]) _
                    [(0, 5); (0, 6); (3, 8); (3, 9)] 0 2 eq_refl
                    ltac:(simpl; lia) ltac:(repeat constructor; discriminate))).
    simpl. lia.
Defined.



(** X14: vertex values loaded before the edges are kept by [load_edges]
    and, when there are fewer of them than vertices, default values are
    appended up to [|V|]; when none was loaded, none is created. *)
Theorem load_edges_pads_vertex_values :
  forall (EV VV : Type) (HVV : Inhabited VV) (bidirectional_range : bool)
         (g g' : csr_graph_base EV VV) (erng : list (copyable_edge_t EV))
         (vertex_count edge_count : N),
    load_edges bidirectional_range g erng vertex_count edge_count = Ok g' ->
    erng <> [] ->
    VId_large_enough erng vertex_count = true ->
    (row_values_ g = [] -> row_values_ g' = [])
    /\ (row_values_ g <> [] ->
        row_values_ g'
        = row_values_ g
          ++ replicate (N.to_nat (num_vertices g') - length (row_values_ g)) inhabitant).
Proof.
  intros EV VV HVV bidir g g' erng vc ec Hload Hne Hfit.
  destruct (load_edges_vertex_count _ _ _ _ _ _ Hload Hne Hfit)
    as (g1 & mx & vc' & Hloop & -> & Hvc' & _ & Hnv & _).
  rewrite Hnv. apply add_edges_columns in Hloop as [_ Hrv].
  unfold finish_rows. simpl. rewrite <- Hvc', Hrv. split.
  - intros ->. reflexivity.
  - intros Hvals.
    destruct (N.ltb_spec 0 (vec_size (row_values_ g))) as [_|H0];
      [|destruct (row_values_ g); [congruence | unfold vec_size in H0; simpl in H0; lia]].
    destruct (N.ltb_spec (vec_size (row_values_ g)) vc') as [Hlt|Hge]; simpl.
    + apply resize_ge. unfold vec_size in Hlt. lia.
    + replace (N.to_nat vc' - length (row_values_ g))%nat with 0%nat
        by (unfold vec_size in Hge; lia).
      simpl. rewrite app_nil_r. reflexivity.
Qed.

Lemma load_edges_pads_vertex_values_witness :
  exists g', load_edges true (mk_graph [7; 8] (col_values []) [] []) routes 0 0 = Ok g'
             /\ row_values_ g' = [7; 8] ++ replicate (N.to_nat (num_vertices g') - 2) inhabitant.
Proof.
  eexists. split; [vm_compute; reflexivity|].
  apply (proj2 (load_edges_pads_vertex_values N N _ true
                  (mk_graph [7; 8] (col_values []) [] []) _ routes 0 0
                  ltac:(vm_compute; reflexivity) ltac:(discriminate)
                  ltac:(vm_compute; reflexivity))).
  discriminate.
Defined.

(** X17: the forwarding overload of [load_edges] returns what the
    [const&] overload returns unless exactly one vertex value was loaded
    before; with exactly one it builds the same rows, columns and edge
    values but leaves the vertex values as they were. *)
Theorem load_edges_overloads :
  forall (EV VV : Type) (HVV : Inhabited VV) (bidirectional_range : bool)
         (g : csr_graph_base EV VV) (erng : list (copyable_edge_t EV))
         (vertex_count edge_count : N),
    (length (row_values_ g) <> 1%nat ->
     load_edges_forwarding bidirectional_range g erng vertex_count edge_count
     = load_edges bidirectional_range g erng vertex_count edge_count)
    /\ (length (row_values_ g) = 1%nat ->
        forall g',
          load_edges bidirectional_range g erng vertex_count edge_count = Ok g' ->
          load_edges_forwarding bidirectional_range g erng vertex_count edge_count
          = Ok (mk_graph (row_values_ g) (col_values_ g') (row_index_ g') (col_index_ g'))).
Proof.
  intros EV VV HVV bidir g erng vc ec.
  unfold load_edges_forwarding, load_edges.
  destruct (negb _); [split; [reflexivity | discriminate]|].
  destruct erng as [|e0 erng0] eqn:Herng.
  { split; [reflexivity|]. intros _ g' [= <-]. destruct g; reflexivity. }
  rewrite <- Herng.
  destruct (add_edges 0 erng g 0 0) as [[g1 mx]|err] eqn:Hloop; simpl;
    [|split; [reflexivity | discriminate]].
  apply add_edges_columns in Hloop as [_ Hrv].
  unfold finish_rows_forwarding, finish_rows. rewrite Hrv. split.
  - intros Hlen. do 2 f_equal.
    destruct (N.ltb_spec 1 (vec_size (row_values_ g)));
      destruct (N.ltb_spec 0 (vec_size (row_values_ g)));
      try reflexivity; unfold vec_size in *; lia.
  - intros Hlen g' [= <-]. simpl. do 2 f_equal.
    destruct (N.ltb_spec 1 (vec_size (row_values_ g))); [unfold vec_size in *; lia|].
    reflexivity.
Qed.

Lemma load_edges_overloads_witness :
  load_edges_forwarding true (mk_graph [7; 8] (col_values []) [] []) routes 0 0
  = load_edges true (mk_graph [7; 8] (col_values []) [] []) routes 0 0
  /\ exists g', load_edges_forwarding true (mk_graph [7] (col_values []) [] []) routes 0 0
                = Ok g' /\ row_values_ g' = [7].
Proof.
  split.
  - apply (proj1 (load_edges_overloads N N _ true (mk_graph [7; 8] (col_values []) [] [])
                    routes 0 0)). simpl. lia.
  - eexists. split.
    + apply (proj2 (load_edges_overloads N N _ true (mk_graph [7] (col_values []) [] [])
                      routes 0 0) eq_refl).
      vm_compute. reflexivity.
    + reflexivity.
Defined.

(** X18: [load] on an empty graph succeeds exactly when the sources of the
    edge range are non-decreasing and every vertex id is below the number
    of vertex pairs; the graph it returns has the rows, columns and edge
    values of [load_edges] and one vertex value per pair. *)
Theorem load_edges_then_vertices :
  forall (EV VV : Type) (HVV : Inhabited VV) (bidirectional_range : bool)
         (g : csr_graph_base EV VV) (erng : list (copyable_edge_t EV))
         (vrng : list (copyable_vertex_t VV)),
    graph_is_empty g = true ->
    (is_Ok (load bidirectional_range g erng vrng) = true
     <-> Sorted N.le (source_id <$> erng) /\ Forall (fun p => fst p < vec_size vrng) vrng)
    /\ (forall g',
          load bidirectional_range g erng vrng = Ok g' ->
          exists g1,
            load_edges bidirectional_range g erng 0 0 = Ok g1
            /\ row_index_ g' = row_index_ g1
            /\ col_index_ g' = col_index_ g1
            /\ col_values_ g' = col_values_ g1
            /\ length (row_values_ g') = length vrng).
Proof.
  intros EV VV HVV bidir g erng vrng Hempty.
  pose proof (load_edges_ok_iff bidir g erng 0 0 Hempty) as Hedges.
  unfold load. split.
  - rewrite is_Ok_bind.
    destruct (load_edges bidir g erng 0 0) as [g1|err]; simpl in Hedges.
    + rewrite load_vertices_ok, forallb_forall, Forall_forall. split.
      * intros H. split; [apply Hedges; reflexivity|].
        intros p Hp. apply N.ltb_lt, H, list_elem_of_In, Hp.
      * intros [_ H] p Hp. apply N.ltb_lt, H, list_elem_of_In, Hp.
    + split; [discriminate|]. intros [Hs _]. apply Hedges in Hs. discriminate.
  - intros g'. destruct (load_edges bidir g erng 0 0) as [g1|err]; simpl; [|discriminate].
    intros Hv. exists g1. split; [reflexivity|].
    unfold load_vertices in Hv.
    destruct (load_row_values _ _ _) as [r|e] eqn:Hr; simpl in Hv; [|discriminate].
    injection Hv as <-. simpl. apply load_row_values_length in Hr. auto.
Qed.

Lemma load_edges_then_vertices_witness :
  is_Ok (load true (csr_graph_new N N false) routes [(1, 5); (0, 6)]) = true.
Proof.
  apply (proj1 (load_edges_then_vertices N N _ true (csr_graph_new N N false) routes
                  [(1, 5); (0, 6)] eq_refl)).
  split; repeat constructor; simpl; lia.
Defined.

(** ** Walking the vertexlist view *)

Lemma to_VId_succ (key k : N) : to_VId (to_VId (key + 1) + k) = to_VId (key + (k + 1)).
Proof.
  unfold to_VId. rewrite N.Div0.add_mod_idemp_l. f_equal. lia.
Qed.

(** Key and cursor advance in lockstep from the first iterator up to the
    sentinel. *)
Lemma vertexlist_elements_lockstep (n : nat) : forall fuel it,
  (n <= fuel)%nat ->
  fst (value_ it) < VId_modulus ->
  vertexlist_elements fuel it (iter_ it + n)
  = (fun k => (to_VId (fst (value_ it) + N.of_nat k), (iter_ it + k)%nat)) <$> seq 0 n.
Proof.
  induction n as [|n IH]; intros fuel it Hfuel Hkey.
  - rewrite Nat.add_0_r. destruct fuel; simpl; [reflexivity|].
    unfold vertexlist_sentinel_eq. rewrite Nat.eqb_refl. reflexivity.
  - destruct fuel as [|fuel]; [lia|]. simpl.
    unfold vertexlist_sentinel_eq.
    destruct (Nat.eqb_spec (iter_ it + S n) (iter_ it)) as [Heq|_]; [lia|].
    f_equal.
    + rewrite N.add_0_r, Nat.add_0_r, to_VId_small by exact Hkey. reflexivity.
    + replace (iter_ it + S n)%nat with (iter_ (vertexlist_next (fst (vertexlist_deref it))) + n)%nat
        by (simpl; lia).
      rewrite IH; [|lia|simpl; apply N.mod_lt; discriminate].
      rewrite <- fmap_S_seq, <- list_fmap_compose. apply list_fmap_ext.
      intros _ k _. simpl. rewrite to_VId_succ. f_equal; [f_equal|]; lia.
Qed.

(** X15: a walk over [vertexlist_view(g)], and over
    [vertexlist_view(g, first, last)] for [first <= last], yields each
    vertex of the range once, in order, paired with its own vertex id. *)
Theorem vertexlist_view_pairs_ids :
  forall (EV VV : Type) (g : csr_graph_base EV VV),
    (forall fuel,
       (length (vertices_fn g) <= fuel)%nat ->
       vertexlist_elements fuel (fst (vertexlist_view g)) (snd (vertexlist_view g))
       = (fun u => (vertex_id_fn g u, u)) <$> vertices_fn g)
    /\ (forall first last fuel,
          (first <= last)%nat ->
          (last - first <= fuel)%nat ->
          vertexlist_elements fuel (fst (vertexlist_view_range first last))
                              (snd (vertexlist_view_range first last))
          = (fun u => (vertex_id_fn g u, u)) <$> seq first (last - first)).
Proof.
  intros EV VV g. split.
  - intros fuel Hfuel.
    assert (Hv : vertices_fn g = seq 0 (length (vertices_fn g))).
    { unfold vertices_fn. destruct (row_index_ g); [reflexivity|].
      simpl. rewrite length_seq. reflexivity. }
    unfold vertexlist_view. simpl.
    pose proof (vertexlist_elements_lockstep (length (vertices_fn g)) fuel
                  (vertexlist_iterator_at 0 0) Hfuel eq_refl) as Hwalk.
    simpl in Hwalk. rewrite Hwalk. rewrite Hv at 2.
    apply list_fmap_ext. intros _ k _. reflexivity.
  - intros first last fuel Hle Hfuel. unfold vertexlist_view_range. simpl.
    replace last with (iter_ (vertexlist_iterator_at first (to_VId (N.of_nat first)))
                       + (last - first))%nat at 1 by (simpl; lia).
    rewrite vertexlist_elements_lockstep;
      [|exact Hfuel | simpl; apply N.mod_lt; discriminate].
    simpl.
    replace (seq first (last - first))
      with ((fun k => first + k)%nat <$> seq 0 (last - first))
      by (rewrite fmap_add_seq; f_equal; lia).
    rewrite <- list_fmap_compose. apply list_fmap_ext. intros _ k _. simpl. unfold vertex_id_fn, to_VId.
    rewrite N.Div0.add_mod_idemp_l. f_equal. f_equal. lia.
Qed.

Lemma vertexlist_view_pairs_ids_witness :
  vertexlist_elements 10 (fst (vertexlist_view (routes_graph unit)))
                      (snd (vertexlist_view (routes_graph unit)))
  = (fun u => (vertex_id_fn (routes_graph unit) u, u)) <$> vertices_fn (routes_graph unit)
  /\ vertexlist_elements 5 (fst (vertexlist_view_range 3 6)) (snd (vertexlist_view_range 3 6))
     = [(3, 3%nat); (4, 4%nat); (5, 5%nat)].
Proof.
  destruct (vertexlist_view_pairs_ids N unit (routes_graph unit)) as [Hall Hrange].
  split.
  - apply Hall. simpl. lia.
  - apply (Hrange 3%nat 6%nat 5%nat); lia.
Defined.

(** X16: with a caller supplied [start_at], the walk over
    [vertexlist_view(g, first, last, start_at)] for [first <= last] yields
    the vertices from [first] up to [last], the k-th of them paired with
    [start_at + k] reduced to [vertex_id_type]. *)
Theorem vertexlist_view_start_at :
  forall (first last fuel : nat) (start_at : N),
    (first <= last)%nat ->
    (last - first <= fuel)%nat ->
    start_at < VId_modulus ->
    vertexlist_elements fuel (fst (vertexlist_view_range_at first last start_at))
                        (snd (vertexlist_view_range_at first last start_at))
    = (fun k => (to_VId (start_at + N.of_nat k), (first + k)%nat)) <$> seq 0 (last - first).
Proof.
  intros first last fuel start_at Hle Hfuel Hstart.
  unfold vertexlist_view_range_at. simpl.
  replace last with (iter_ (vertexlist_iterator_at first start_at) + (last - first))%nat at 1
    by (simpl; lia).
  rewrite vertexlist_elements_lockstep by assumption. reflexivity.
Qed.

Lemma vertexlist_view_start_at_witness :
  vertexlist_elements 4 (fst (vertexlist_view_range_at 2 4 4294967295))
                      (snd (vertexlist_view_range_at 2 4 4294967295))
  = [(4294967295, 2%nat); (0, 3%nat)].
Proof.
  apply (vertexlist_view_start_at 2 4 4 4294967295); [lia | simpl; lia | reflexivity].
Defined.
